(** * preride: route suffer-score and wind-fetch core

    A shallow embedding of the computational core of the application:

    - [Scorer]: the geometry helpers and [buildSegmentCollection] of the
      top-level component file;
    - [WindFetch]: the cache and single-flight layer of
      [hooks/useWindData.ts] ([cacheKey], [fetchWindForPoint]);
    - [Pool]: the bounded-parallelism runner [pooled] of
      [hooks/windArrows.ts].

    JavaScript numbers are read as real numbers: a finite double stands
    for the real it denotes and every arithmetic operation is exact.  NaN,
    the infinities, signed zeros and rounding error are outside this
    reading; where the source relies on one of them the definition says
    how it is rendered.  [Binary64] takes [Math.PI] as the double it is,
    for the one place where the difference from pi decides a result. *)

From Stdlib Require Import Reals Machin Lra Lia ZArith List.
From Stdlib Require Import DecimalString.
From stdpp Require Import gmap strings list.

Open Scope R_scope.

(** ** JavaScript number primitives over the reals *)

Module JS.

(** [Math.trunc]: the integer part towards zero. *)
Definition trunc (x : R) : Z :=
  if Rle_dec 0 x then Int_part x else (- Int_part (- x))%Z.

(** The [%] operator on numbers: the remainder has the sign of the
    dividend, [x - m * trunc (x / m)]. *)
Definition rem (x m : R) : R := x - m * IZR (trunc (x / m)).

(** [Math.round]: the nearest integer, ties towards plus infinity. *)
Definition round (x : R) : R := IZR (Int_part (x + 1 / 2)).

(** [Math.atan2 y x], the angle of the point [(x, y)] in (-PI, PI].
    With no signed zero, [atan2 0 x] is [PI] for negative [x] and
    [atan2 0 0] is [0]. *)
Definition atan2 (y x : R) : R :=
  if Rlt_dec 0 x then atan (y / x)
  else if Rlt_dec x 0 then
    (if Rle_dec 0 y then atan (y / x) + PI else atan (y / x) - PI)
  else if Rlt_dec 0 y then PI / 2
  else if Rlt_dec y 0 then - (PI / 2)
  else 0.

(** Decimal digits of a non-negative integer. *)
Definition digits (n : Z) : string :=
  NilZero.string_of_uint (N.to_uint (Z.to_N n)).

Fixpoint zeros (k : nat) : string :=
  match k with
  | O => EmptyString
  | S k' => String (Ascii.ascii_of_nat 48) (zeros k')
  end.

(** The string [toFixed] builds from the sign and the integer [n] of
    the scaled magnitude: [n] written with at least [f + 1] digits and
    a point before the last [f]. *)
Definition fixedString (neg : bool) (n : Z) (f : nat) : string :=
  let s := if neg then "-"%string else EmptyString in
  let m := digits n in
  let k := String.length m in
  let m := if (k <=? f)%nat then (zeros (f + 1 - k) +:+ m)%string else m in
  let k := String.length m in
  s +:+ String.substring 0 (k - f) m +:+ "." +:+ String.substring (k - f) f m.

(** [Number.prototype.toFixed] for [f > 0] fraction digits and
    [|x| < 1e21]: the sign, then the integer nearest to [|x| * 10^f],
    the larger one on a tie.  A negative [x] keeps its sign even when
    it rounds to zero. *)
Definition toFixed (x : R) (f : nat) : string :=
  fixedString (if Rlt_dec x 0 then true else false)
    (Int_part (Rabs x * 10 ^ f + 1 / 2)) f.

(** Truthiness of [x || d] on a possibly missing count: [undefined]
    and [0] fall through to the default. *)
Definition orElse (o : option nat) (d : nat) : nat :=
  match o with
  | Some (S n) => S n
  | _ => d
  end.

End JS.

(** ** Wind forecast cache and single-flight fetch *)

Module WindData.

Record HourlyWindEntry := mkEntry {
  time : string;
  speed_kmh : R;
  direction_deg : R
}.

(** The [hourly] object of a forecast response: three parallel arrays. *)
Record Forecast := mkForecast {
  hourly_time : list string;
  windspeed_10m : list R;
  winddirection_10m : list R
}.

(** How the request behind [fetch] ends: the network fails, or a
    response arrives with its [ok] flag, its status and, when the body
    parses to the expected shape, the forecast. *)
Inductive NetResult :=
| NetFail (err : string)
| Http (ok : bool) (status : nat) (json : option Forecast).

(** A promise of the module once it has settled. *)
Inductive Settled :=
| Fulfilled (entries : list HourlyWindEntry)
| Rejected (err : string).

(** What a call hands back: the cached array, or the promise, by its
    number, of the request in flight. *)
Inductive Returned :=
| Cached (entries : list HourlyWindEntry)
| Shared (p : nat).

(** The closure of an outstanding request: the key it was issued
    under and the coordinates of its URL. *)
Record Request := mkRequest { r_key : string; r_lat : R; r_lon : R }.

(** The two module-level maps, the promises created so far with the
    requests still outstanding, and the number of requests issued. *)
Record Store := mkStore {
  cache : gmap string (list HourlyWindEntry);
  inflight : gmap string nat;
  requests : gmap nat Request;
  outcome : gmap nat Settled;
  issued : nat
}.

Definition init : Store := mkStore ∅ ∅ ∅ ∅ 0.

Definition cacheKey (lat lon : R) : string :=
  (JS.toFixed lat 4 +:+ "," +:+ JS.toFixed lon 4)%string.

Definition fetchWindForPoint (lat lon : R) (s : Store) : Returned * Store :=
  let key := cacheKey lat lon in
  match cache s !! key with
  | Some entries => (Cached entries, s)
  | None =>
      match inflight s !! key with
      | Some p => (Shared p, s)
      | None =>
          let p := issued s in
          (Shared p,
           mkStore (cache s) (<[key := p]> (inflight s))
             (<[p := mkRequest key lat lon]> (requests s))
             (outcome s) (S p))
      end
  end.

Section Handlers.
(** [new Date(t).getTime()]; [None] is an unparsable time, whose
    [NaN] fails every comparison. *)
Variable getTime : string → option Z.

Definition isFuture (now : Z) (e : HourlyWindEntry) : bool :=
  match getTime (time e) with
  | Some ms => (now <=? ms)%Z
  | None => false
  end.

(** The second [then] handler up to [slice].  A read past the end of
    [speeds] or [dirs] is [undefined] in the source and its rounding
    [NaN]; here it reads [0], and the statements about this function
    take the three arrays of equal length. *)
Definition parseEntries (json : Forecast) (now : Z) : list HourlyWindEntry :=
  let times := hourly_time json in
  let speeds := windspeed_10m json in
  let dirs := winddirection_10m json in
  take 24
    (List.filter (isFuture now)
       (imap (λ i t,
            mkEntry t (JS.round (nth i speeds 0 * 10) / 10)
              (JS.round (nth i dirs 0)))
          times)).

(** The error that reaches the [catch] handler, if any. *)
Definition failure (net : NetResult) : option string :=
  match net with
  | NetFail err => Some err
  | Http false status _ =>
      Some ("Open-Meteo HTTP " +:+ JS.digits (Z.of_nat status))%string
  | Http true _ None => Some "TypeError"%string
  | Http true _ (Some _) => None
  end.

(** The handlers attached to promise [p] run when its request ends:
    on success the entries are cached, on failure the error is
    rethrown; either way the in-flight entry of the key goes. *)
Definition settle (p : nat) (net : NetResult) (now : Z) (s : Store) : Store :=
  match requests s !! p with
  | None => s
  | Some rq =>
      let key := r_key rq in
      match net with
      | Http true _ (Some json) =>
          let entries := parseEntries json now in
          mkStore (<[key := entries]> (cache s)) (delete key (inflight s))
            (delete p (requests s)) (<[p := Fulfilled entries]> (outcome s))
            (issued s)
      | _ =>
          let err := default EmptyString (failure net) in
          mkStore (cache s) (delete key (inflight s))
            (delete p (requests s)) (<[p := Rejected err]> (outcome s))
            (issued s)
      end
  end.

(** What the event loop can do to the module: run a call, or
    deliver the end of a request. *)
Inductive Event :=
| Call (lat lon : R)
| Settle (p : nat) (net : NetResult) (now : Z).

Definition step (s : Store) (e : Event) : Store :=
  match e with
  | Call lat lon => snd (fetchWindForPoint lat lon s)
  | Settle p net now => settle p net now s
  end.

Definition run (s : Store) (es : list Event) : Store := foldl step s es.
End Handlers.

(** The stores the module can be in: every in-flight key has its one
    outstanding request and no cache entry, and promise numbers are
    handed out once. *)
Record consistent (s : Store) : Prop := mkConsistent {
  inflight_pending : ∀ k p, inflight s !! k = Some p →
    ∃ rq, requests s !! p = Some rq ∧ r_key rq = k;
  pending_inflight : ∀ p rq, requests s !! p = Some rq →
    inflight s !! r_key rq = Some p;
  inflight_uncached : ∀ k p, inflight s !! k = Some p → cache s !! k = None;
  pending_issued : ∀ p rq, requests s !! p = Some rq → (p < issued s)%nat;
  pending_unsettled : ∀ p rq, requests s !! p = Some rq → outcome s !! p = None;
  settled_issued : ∀ p o, outcome s !! p = Some o → (p < issued s)%nat
}.

(** The hourly series in the words of the interface description: the
    fetched rows, those not before [now], the first 24 of them, each
    with its speed rounded to one decimal and its direction to an
    integer. *)
Definition fetchedRows (json : Forecast) : list (string * (R * R)) :=
  zip (hourly_time json) (zip (windspeed_10m json) (winddirection_10m json)).

Definition roundedEntry (row : string * (R * R)) : HourlyWindEntry :=
  mkEntry row.1 (JS.round (row.2.1 * 10) / 10) (JS.round row.2.2).

Definition notBefore (getTime : string → option Z) (now : Z)
    (row : string * (R * R)) : bool :=
  match getTime row.1 with
  | Some ms => (now <=? ms)%Z
  | None => false
  end.

Definition retained (getTime : string → option Z) (json : Forecast) (now : Z)
    : list HourlyWindEntry :=
  map roundedEntry (take 24 (List.filter (notBefore getTime now) (fetchedRows json))).

End WindData.

(** ** Route segmentation and suffer score *)

Module Scorer.
Import WindData.

(** A route coordinate [[lng, lat]]. *)
Definition Coord : Type := R * R.
Definition lngOf (c : Coord) : R := fst c.
Definition latOf (c : Coord) : R := snd c.

Record SamplePoint := mkSample { lat : R; lon : R }.

Record DebugSegmentStats := mkStats {
  headwindRaw : R;
  grade : R;
  climbPenalty : R;
  sufferRaw : R;
  totalScore : R;
  coords : list Coord
}.

Record Properties := mkProps {
  score : R;
  p_headwindRaw : R;
  p_grade : R;
  p_climbPenalty : R;
  p_sufferRaw : R;
  p_totalScore : R
}.

Record Feature := mkFeature {
  properties : Properties;
  geometry : list Coord
}.

Record FeatureCollection := mkCollection { features : list Feature }.

Definition toRad (d : R) : R := d * PI / 180.

(** Great-circle bearing from A to B, in degrees. *)
Definition computeBearing (lat1 lng1 lat2 lng2 : R) : R :=
  let dLng := toRad (lng2 - lng1) in
  let phi1 := toRad lat1 in
  let phi2 := toRad lat2 in
  let y := sin dLng * cos phi2 in
  let x := cos phi1 * sin phi2 - sin phi1 * cos phi2 * cos dLng in
  JS.rem (JS.atan2 y x * (180 / PI) + 360) 360.

(** Smallest unsigned angle between two bearings. *)
Definition smallestAngle (a b : R) : R :=
  let d := JS.rem (Rabs (a - b)) 360 in
  if Rlt_dec 180 d then 360 - d else d.

Definition headwindComponent (bearing windFromDeg windSpeedKmh : R) : R :=
  let theta := smallestAngle bearing windFromDeg in
  windSpeedKmh * cos (theta * PI / 180).

Definition haversineMeters (lat1 lng1 lat2 lng2 : R) : R :=
  let R0 := 6371000 in
  let dLat := toRad (lat2 - lat1) in
  let dLng := toRad (lng2 - lng1) in
  let a :=
    sin (dLat / 2) ^ 2 +
    cos (toRad lat1) * cos (toRad lat2) * sin (dLng / 2) ^ 2 in
  R0 * 2 * JS.atan2 (sqrt a) (sqrt (1 - a)).

(** The loop of [nearestSampleIndex]; [bestD = None] is the initial
    [Infinity], below which every distance lies. *)
Fixpoint nearestLoop (midLat midLng : R) (pts : list SamplePoint)
    (i best : nat) (bestD : option R) : nat :=
  match pts with
  | [] => best
  | p :: rest =>
      let d := (lat p - midLat) ^ 2 + (lon p - midLng) ^ 2 in
      let closer :=
        match bestD with
        | None => true
        | Some b => if Rlt_dec d b then true else false
        end in
      if closer then nearestLoop midLat midLng rest (S i) i (Some d)
      else nearestLoop midLat midLng rest (S i) best bestD
  end.

Definition nearestSampleIndex (midLat midLng : R)
    (pts : list SamplePoint) : nat :=
  nearestLoop midLat midLng pts 0 0 None.

Definition CLIMB_K : R := 80.
Definition GRADE_CLAMP : R := 0.2.
Definition OFFSET_METERS : R := 5.

(** Flat-earth displacement; the result is [[lon, lat]]. *)
Definition offsetPoint (lat0 lon0 bearingDeg distMeters : R) : Coord :=
  let perpRad := (bearingDeg + 90) * PI / 180 in
  let dy := distMeters * cos perpRad in
  let dx := distMeters * sin perpRad in
  let latOffset := dy / 111111 in
  let lonOffset := dx / (111111 * cos (lat0 * PI / 180)) in
  (lon0 + lonOffset, lat0 + latOffset).

(** The closure [getEdgeKey]: both endpoints as ["lat,lng"] with five
    decimals, the smaller string first. *)
Definition getEdgeKey (p1 p2 : Coord) : string :=
  let k1 := (JS.toFixed (latOf p1) 5 +:+ "," +:+ JS.toFixed (lngOf p1) 5)%string in
  let k2 := (JS.toFixed (latOf p2) 5 +:+ "," +:+ JS.toFixed (lngOf p2) 5)%string in
  if String.ltb k1 k2 then (k1 +:+ "|" +:+ k2)%string
  else (k2 +:+ "|" +:+ k1)%string.

(** Pre-pass: traversals per undirected edge. *)
Fixpoint countEdges (cs : list Coord) (edgeCounts : gmap string nat)
    : gmap string nat :=
  match cs with
  | c1 :: ((c2 :: _) as rest) =>
      let key := getEdgeKey c1 c2 in
      countEdges rest
        (<[key := (JS.orElse (edgeCounts !! key) 0 + 1)%nat]> edgeCounts)
  | _ => edgeCounts
  end.

(** [allData[nearestIdx]?.[hourIndex] ?? null]. *)
Definition windEntry (allData : list (option (list HourlyWindEntry)))
    (nearestIdx hourIndex : nat) : option HourlyWindEntry :=
  match allData !! nearestIdx with
  | Some (Some series) => series !! hourIndex
  | _ => None
  end.

(** [samplePoints.length > 0 ? nearestSampleIndex(...) : 0]. *)
Definition nearestIdxOf (samplePoints : list SamplePoint)
    (midLat midLng : R) : nat :=
  match samplePoints with
  | [] => O
  | _ => nearestSampleIndex midLat midLng samplePoints
  end.

(** [headwindRaw] of a segment: the headwind of its wind entry, none
    without an entry, floored at zero. *)
Definition headwindRawOf (entry : option HourlyWindEntry) (bearing : R) : R :=
  let hw :=
    match entry with
    | Some e => headwindComponent bearing (direction_deg e) (speed_kmh e)
    | None => 0
    end in
  Rmax 0 hw.

Section MainPass.
Variable samplePoints : list SamplePoint.
Variable allData : list (option (list HourlyWindEntry)).
Variable hourIndex : nat.
Variable elevations : list R.
Variable hasElev : bool.
Variable edgeCounts : gmap string nat.

(** Grade and climb penalty of segment [i]; the elevation reads are
    in range whenever [hasElev] holds. *)
Definition climbOf (i : nat) (lat1 lng1 lat2 lng2 : R) : R * R :=
  if hasElev then
    let distM := haversineMeters lat1 lng1 lat2 lng2 in
    if Rlt_dec 0.1 distM then
      let rawGrade := (nth (i + 1) elevations 0 - nth i elevations 0) / distM in
      let g := Rmax (- GRADE_CLAMP) (Rmin GRADE_CLAMP rawGrade) in
      if Rlt_dec 0 g then (g, CLIMB_K * g) else (g, 0)
    else (0, 0)
  else (0, 0).

(** One iteration of the main loop: the pushed record and the
    updated [edgeVisited]. *)
Definition segmentAt (i : nat) (c1 c2 : Coord)
    (edgeVisited : gmap string nat)
    : DebugSegmentStats * gmap string nat :=
  let lng1 := lngOf c1 in let lat1 := latOf c1 in
  let lng2 := lngOf c2 in let lat2 := latOf c2 in
  let midLat := (lat1 + lat2) / 2 in
  let midLng := (lng1 + lng2) / 2 in
  let bearing := computeBearing lat1 lng1 lat2 lng2 in
  let nearestIdx := nearestIdxOf samplePoints midLat midLng in
  let entry := windEntry allData nearestIdx hourIndex in
  let headwindRaw := headwindRawOf entry bearing in
  let '(grade, climbPenalty) := climbOf i lat1 lng1 lat2 lng2 in
  let sufferRaw := headwindRaw + climbPenalty in
  let edgeKey := getEdgeKey c1 c2 in
  let totalVisits := JS.orElse (edgeCounts !! edgeKey) 1 in
  if (1 <? totalVisits)%nat then
    let visitsSoFar := JS.orElse (edgeVisited !! edgeKey) 0 in
    let sign := if (visitsSoFar =? 0)%nat then 1 else -1 in
    let p1 := offsetPoint lat1 lng1 bearing (sign * OFFSET_METERS) in
    let p2 := offsetPoint lat2 lng2 bearing (sign * OFFSET_METERS) in
    (mkStats headwindRaw grade climbPenalty sufferRaw 0 [p1; p2],
     <[edgeKey := (visitsSoFar + 1)%nat]> edgeVisited)
  else
    (mkStats headwindRaw grade climbPenalty sufferRaw 0 [c1; c2],
     edgeVisited).

(** The main loop over [i = 0 .. coords.length - 2]. *)
Fixpoint mainPass (i : nat) (cs : list Coord)
    (edgeVisited : gmap string nat) : list DebugSegmentStats :=
  match cs with
  | c1 :: ((c2 :: _) as rest) =>
      let '(seg, visited) := segmentAt i c1 c2 edgeVisited in
      seg :: mainPass (S i) rest visited
  | _ => []
  end.
End MainPass.

(** [Math.max(...raws, 1e-6)]. *)
Definition maxRawOf (raws : list R) : R := foldr Rmax 1e-6 raws.

Definition featureOf (maxRaw : R) (seg : DebugSegmentStats) : Feature :=
  mkFeature
    (mkProps (sufferRaw seg / maxRaw) (headwindRaw seg) (grade seg)
       (climbPenalty seg) (sufferRaw seg) (sufferRaw seg / maxRaw))
    (coords seg).

Definition buildSegmentCollection (cs : list Coord)
    (samplePoints : list SamplePoint)
    (allData : list (option (list HourlyWindEntry)))
    (hourIndex : nat) (elevations : list R) (includeElevation : bool)
    : FeatureCollection :=
  if (length cs <? 2)%nat then mkCollection []
  else
    let hasElev :=
      includeElevation && (length elevations =? length cs)%nat in
    let edgeCounts := countEdges cs ∅ in
    let segmentData :=
      mainPass samplePoints allData hourIndex elevations hasElev
        edgeCounts 0 cs ∅ in
    let raws := map sufferRaw segmentData in
    let maxRaw := maxRawOf raws in
    mkCollection (map (featureOf maxRaw) segmentData).

(** The out-and-back route [[0,0],[0,1],[0,0]] and its first leg. *)
Definition outAndBack : list Coord := [(0, 0); (0, 1); (0, 0)].
Definition meridianDegree : list Coord := [(0, 0); (0, 1)].

End Scorer.

(** ** Bounded-parallelism task runner *)

Module Pool.

(** Modelled from the spec: [pooled] of [hooks/windArrows.ts], whose
    source is not part of the files at hand; only its call
    [pooled(tasks, ARROW_CONCURRENCY)] is.  The spec gives its contract:
    an ordered sequence of zero-argument tasks and a maximum
    parallelism [k]; tasks are started in order while a slot is free;
    a task that settles, by success or by failure, releases its slot
    at once, before the next queued task is started; a failure cancels
    no sibling; the pool resolves or rejects once every task has
    settled.  Tasks are named by their position in the sequence. *)
Record State := mkState {
  queue : list nat;
  active : list nat;
  settled : list (nat * bool)
}.

(** Modelled from the spec: the start of queued tasks, in order, while
    fewer than [k] are active. *)
Fixpoint serve (k : nat) (queue active : list nat) : list nat * list nat :=
  match queue with
  | [] => ([], active)
  | t :: rest =>
      if (length active <? k)%nat then serve k rest (active ++ [t])
      else (queue, active)
  end.

(** Modelled from the spec: the pool right after [pooled(tasks, k)] is
    called with [n] tasks. *)
Definition start (n k : nat) : State :=
  let '(q, a) := serve k (seq 0 n) [] in
  mkState q a [].

(** Modelled from the spec: active task [t] settles with success
    ([ok = true]) or failure; its slot is released, then the queue is
    served.  A task that is not active cannot settle. *)
Definition finish (k : nat) (s : State) (ev : nat * bool) : State :=
  let '(t, ok) := ev in
  if bool_decide (t ∈ active s) then
    let released := List.filter (λ u, negb (u =? t)%nat) (active s) in
    let '(q, a) := serve k (queue s) released in
    mkState q a (settled s ++ [(t, ok)])
  else s.

Definition run (k : nat) (s : State) (evs : list (nat * bool)) : State :=
  foldl (finish k) s evs.

(** Modelled from the spec: the promise of the pool.  It is pending
    ([None]) while a task is queued or active, then resolved
    ([Some true]) if every task succeeded and rejected otherwise. *)
Definition result (s : State) : option bool :=
  match queue s, active s with
  | [], [] => Some (forallb snd (settled s))
  | _, _ => None
  end.

(** A schedule in which every event settles a task that is active when
    the event arrives. *)
Fixpoint enabled (k : nat) (s : State) (evs : list (nat * bool)) : Prop :=
  match evs with
  | [] => True
  | ev :: rest => ev.1 ∈ active s ∧ enabled k (finish k s ev) rest
  end.

(** The pool accounts for every task exactly once, holds at most [k]
    of them active, and keeps its slots full while tasks wait. *)
Record accounted (n k : nat) (s : State) : Prop := mkAccounted {
  slots_bounded : (length (active s) ≤ k)%nat;
  tasks_kept : queue s ++ active s ++ map fst (settled s) ≡ₚ seq 0 n;
  slots_full : queue s ≠ [] → (k ≤ length (active s))%nat
}.

End Pool.

(** ** Wind sample points along the route *)

Module Sampling.
Import Scorer.

(** The integer [Math.round] yields. *)
Definition roundInt (x : R) : Z := Int_part (x + 1 / 2).

(** The position [Math.min(idx, coords.length - 1)] read for sample [i]
    of [n] on a route of [len] coordinates. *)
Definition sampleIndex (len n i : nat) : Z :=
  let idx := roundInt (INR i / Rmax (INR n - 1) 1 * (INR len - 1)) in
  Z.min idx (Z.of_nat len - 1).

(** [sampleRoutePoints]: [n] points of the route, by evenly spaced
    positions.  The read is within the route for every sample (shown
    below), so the default of [nth] is never taken. *)
Definition sampleRoutePoints (coords : list Coord) (n : nat) : list SamplePoint :=
  if (length coords =? 0)%nat then []
  else
    map (λ i,
        let c := nth (Z.to_nat (sampleIndex (length coords) n i)) coords (0, 0) in
        mkSample (latOf c) (lngOf c))
      (seq 0 n).

End Sampling.

(** ** Elevation cache *)

Module Elevation.
Import Scorer.

(** Cache key rounded to 5 decimal places. *)
Definition elevationKey (lat lng : R) : string :=
  (JS.toFixed lat 5 +:+ "," +:+ JS.toFixed lng 5)%string.

(** The module-level [elevCache], and the terrain queries made so far,
    oldest first, kept to tell a cached read from a query. *)
Record Store := mkStore {
  elevCache : gmap string R;
  queries : list Coord
}.

Section Terrain.
(** [map.queryTerrainElevation({lng, lat})]; [None] is the [null] of a
    terrain source that is not loaded. *)
Variable queryTerrainElevation : R → R → option R.

(** The callback of [coords.map] on one [[lng, lat]]. *)
Definition sampleOne (s : Store) (c : Coord) : R * Store :=
  let key := elevationKey (latOf c) (lngOf c) in
  match elevCache s !! key with
  | Some elev => (elev, s)
  | None =>
      let elev := default 0 (queryTerrainElevation (lngOf c) (latOf c)) in
      (elev, mkStore (<[key := elev]> (elevCache s)) (queries s ++ [c]))
  end.

Fixpoint sampleElevations (s : Store) (coords : list Coord) : list R * Store :=
  match coords with
  | [] => ([], s)
  | c :: rest =>
      let '(elev, s1) := sampleOne s c in
      let '(elevs, s2) := sampleElevations s1 rest in
      (elev :: elevs, s2)
  end.
End Terrain.

End Elevation.

(** ** Time slider *)

Module Slider.

(** [String.prototype.split] on a one-character separator. *)
Fixpoint split (sep : Ascii.ascii) (s : string) : list string :=
  match s with
  | EmptyString => [EmptyString]
  | String c rest =>
      match split sep rest with
      | [] => [String c EmptyString]
      | piece :: pieces =>
          if Ascii.eqb c sep then EmptyString :: piece :: pieces
          else String c piece :: pieces
      end
  end.

(** [iso.split('T')[1] ?? iso]. *)
Definition shortTime (iso : string) : string :=
  match split (Ascii.ascii_of_nat 84) iso with
  | _ :: t :: _ => t
  | _ => iso
  end.

(** [max] of the range input for a series of [len] entries. *)
Definition sliderMax (len : nat) : nat :=
  if (0 <? len)%nat then (len - 1)%nat else 23%nat.

(** The positions of the first, middle and last tick labels. *)
Definition tickIndices (len : nat) : list nat :=
  [0%nat; (len / 2)%nat; sliderMax len].

(** [pct], the filled share of the track. *)
Definition pct (hourIndex len : nat) : R :=
  if (0 <? sliderMax len)%nat then INR hourIndex / INR (sliderMax len) * 100
  else 0.

End Slider.

(** ** Reference definitions

    Notions the properties below are stated with. *)

Module Reference.
Import WindData Scorer.

(** The squared latitude/longitude distance [nearestSampleIndex]
    compares. *)
Definition sqDist (midLat midLng : R) (p : SamplePoint) : R :=
  (lat p - midLat) ^ 2 + (lon p - midLng) ^ 2.

(** What the loop of [nearestSampleIndex] holds after the samples
    [seen]: nothing yet, or the first sample of least distance. *)
Definition leads (midLat midLng : R) (seen : list SamplePoint) (best : nat) (bestD : option R) : Prop :=
  match bestD with
  | None => seen = []
  | Some b =>
      ∃ p, seen !! best = Some p ∧ sqDist midLat midLng p = b
           ∧ (∀ q, q ∈ seen → b <= sqDist midLat midLng q)
           ∧ (∀ j q, (j < best)%nat → seen !! j = Some q → b < sqDist midLat midLng q)
  end.

(** The edge keys of the consecutive pairs of a route, in order. *)
Fixpoint edgeKeys (cs : list Coord) : list string :=
  match cs with
  | c1 :: ((c2 :: _) as rest) => getEdgeKey c1 c2 :: edgeKeys rest
  | _ => []
  end.

Definition occurrences (k : string) (keys : list string) : nat :=
  length (filter (λ x, x = k) keys).

(** [edgeVisited] counts, for every edge key that repeats, the
    traversals made so far. *)
Definition visitsMatch (ec ev : gmap string nat) (passed : list string) : Prop :=
  ∀ k, (1 < JS.orElse (ec !! k) 1)%nat →
       JS.orElse (ev !! k) 0 = occurrences k passed.

(** The elevation cache key of a route coordinate. *)
Definition keyOf (c : Coord) : string :=
  Elevation.elevationKey (latOf c) (lngOf c).

(** Every promise handed out is waiting on its request or settled. *)
Definition tracked (s : WindData.Store) : Prop :=
  ∀ p, (p < issued s)%nat → is_Some (requests s !! p) ∨ is_Some (outcome s !! p).

(** Whether character [c] occurs in [s]. *)
Fixpoint occurs (c : Ascii.ascii) (s : string) : bool :=
  match s with
  | EmptyString => false
  | String a rest => Ascii.eqb a c || occurs c rest
  end.

(** A short route with distinct endpoints. *)
Definition threePoints : list Coord := [(1, 2); (3, 4); (5, 6)].

End Reference.

(** ** The headwind with [Math.PI] as a double *)

Module Binary64.
Import WindData Scorer.

(** [Math.PI]: the double nearest to pi, [0x400921FB54442D18]. *)
Definition Math_PI : R := 884279719003555 / 281474976710656.

(** [headwindComponent] with [Math.PI] the double it is.  The product,
    the quotient and the cosine stay exact; at an angular difference of
    90 the argument of the cosine is [Math.PI / 2], the double the
    source passes to [Math.cos]. *)
Definition headwindComponent (bearing windFromDeg windSpeedKmh : R) : R :=
  let theta := smallestAngle bearing windFromDeg in
  windSpeedKmh * cos (theta * Math_PI / 180).

(** [headwindRaw] of a segment over this [headwindComponent]. *)
Definition headwindRawOf (entry : option HourlyWindEntry) (bearing : R) : R :=
  let hw :=
    match entry with
    | Some e => headwindComponent bearing (direction_deg e) (speed_kmh e)
    | None => 0
    end in
  Rmax 0 hw.

(** [headwindRaw] of the segment from [c1] to [c2], as the main loop
    computes it from the bearing and the nearest sample's entry. *)
Definition segmentHeadwind (samplePoints : list SamplePoint)
    (allData : list (option (list HourlyWindEntry))) (hourIndex : nat)
    (c1 c2 : Coord) : R :=
  let lng1 := lngOf c1 in let lat1 := latOf c1 in
  let lng2 := lngOf c2 in let lat2 := latOf c2 in
  let midLat := (lat1 + lat2) / 2 in
  let midLng := (lng1 + lng2) / 2 in
  let bearing := computeBearing lat1 lng1 lat2 lng2 in
  let nearestIdx := nearestIdxOf samplePoints midLat midLng in
  let entry := windEntry allData nearestIdx hourIndex in
  headwindRawOf entry bearing.

End Binary64.

(** * Properties *)

(** ** Number primitives *)

Section Numbers.
Import WindData Scorer.

Lemma Int_part_eq (z : Z) (x : R) : IZR z <= x < IZR z + 1 → Int_part x = z.
Proof. intros H. symmetry. apply Int_part_spec. lra. Qed.

Lemma Int_part_bounds (x : R) : IZR (Int_part x) <= x < IZR (Int_part x) + 1.
Proof. destruct (base_Int_part x). lra. Qed.

Lemma trunc_nonneg (x : R) : 0 <= x → IZR (JS.trunc x) <= x < IZR (JS.trunc x) + 1.
Proof.
  intros Hx. unfold JS.trunc. destruct (Rle_dec 0 x); [|lra]. apply Int_part_bounds.
Qed.

Lemma rem_range (x m : R) : 0 <= x → 0 < m → 0 <= JS.rem x m < m.
Proof.
  intros Hx Hm. unfold JS.rem.
  assert (Hq : 0 <= x / m) by (apply Rmult_le_pos; [lra|left; apply Rinv_0_lt_compat; lra]).
  destruct (trunc_nonneg _ Hq) as [H1 H2].
  assert (Hxm : x = x / m * m) by (field; lra).
  split; nra.
Qed.

Lemma rem_eval (x m : R) (q : Z) :
  0 < m → 0 <= x → IZR q * m <= x < (IZR q + 1) * m → JS.rem x m = x - m * IZR q.
Proof.
  intros Hm Hx [H1 H2]. unfold JS.rem, JS.trunc.
  assert (Hq : 0 <= x / m) by (apply Rmult_le_pos; [lra|left; apply Rinv_0_lt_compat; lra]).
  destruct (Rle_dec 0 (x / m)); [|lra].
  rewrite (Int_part_eq q); [done|].
  split.
  - apply (Rmult_le_reg_r m); [done|]. unfold Rdiv. rewrite Rmult_assoc, Rinv_l; lra.
  - apply (Rmult_lt_reg_r m); [done|]. unfold Rdiv. rewrite Rmult_assoc, Rinv_l; lra.
Qed.

Lemma PI_gt_3 : 3 < PI.
Proof. pose proof PI2_3_2. lra. Qed.

Lemma atan2_0_pos (x : R) : 0 < x → JS.atan2 0 x = 0.
Proof.
  intros Hx. unfold JS.atan2. destruct (Rlt_dec 0 x); [|lra].
  unfold Rdiv. rewrite Rmult_0_l. apply atan_0.
Qed.

Lemma atan2_0_neg (x : R) : x < 0 → JS.atan2 0 x = PI.
Proof.
  intros Hx. unfold JS.atan2. destruct (Rlt_dec 0 x); [lra|].
  destruct (Rlt_dec x 0); [|lra]. destruct (Rle_dec 0 0); [|lra].
  unfold Rdiv. rewrite Rmult_0_l, atan_0. lra.
Qed.

Lemma round_nearest (x : R) :
  ∃ z : Z, JS.round x = IZR z ∧ Rabs (JS.round x - x) <= 1 / 2.
Proof.
  unfold JS.round. exists (Int_part (x + 1 / 2)). split; [done|].
  pose proof (Int_part_bounds (x + 1 / 2)).
  apply Rabs_le. lra.
Qed.

Lemma round_tenth (x : R) :
  ∃ z : Z, JS.round (x * 10) / 10 = IZR z / 10
    ∧ Rabs (JS.round (x * 10) / 10 - x) <= 1 / 20.
Proof.
  unfold JS.round. exists (Int_part (x * 10 + 1 / 2)). split; [done|].
  pose proof (Int_part_bounds (x * 10 + 1 / 2)).
  apply Rabs_le. lra.
Qed.

Lemma toFixed_nonneg (x : R) (f : nat) (n : Z) :
  0 <= x → IZR n <= x * 10 ^ f + 1 / 2 < IZR n + 1 →
  JS.toFixed x f = JS.fixedString false n f.
Proof.
  intros Hx Hn. unfold JS.toFixed. destruct (Rlt_dec x 0); [lra|].
  rewrite Rabs_pos_eq by done. by rewrite (Int_part_eq n).
Qed.

Lemma toFixed_neg (x : R) (f : nat) (n : Z) :
  x < 0 → IZR n <= - x * 10 ^ f + 1 / 2 < IZR n + 1 →
  JS.toFixed x f = JS.fixedString true n f.
Proof.
  intros Hx Hn. unfold JS.toFixed. destruct (Rlt_dec x 0); [|lra].
  rewrite Rabs_left by done. by rewrite (Int_part_eq n).
Qed.

Example cacheKey_toronto : cacheKey 43.65 (-79.4) = "43.6500,-79.4000"%string.
Proof.
  unfold cacheKey.
  rewrite (toFixed_nonneg 43.65 4 436500) by (simpl; lra).
  rewrite (toFixed_neg (-79.4) 4 794000) by (simpl; lra).
  reflexivity.
Qed.

Example cacheKey_nearby : cacheKey 43.65001 (-79.40002) = "43.6500,-79.4000"%string.
Proof.
  unfold cacheKey.
  rewrite (toFixed_nonneg 43.65001 4 436500) by (simpl; lra).
  rewrite (toFixed_neg (-79.40002) 4 794000) by (simpl; lra).
  reflexivity.
Qed.

Example cacheKey_small_negative : cacheKey (-0.00001) 0.5 = "-0.0000,0.5000"%string.
Proof.
  unfold cacheKey.
  rewrite (toFixed_neg (-0.00001) 4 0) by (simpl; lra).
  rewrite (toFixed_nonneg 0.5 4 5000) by (simpl; lra).
  reflexivity.
Qed.

Example getEdgeKey_meridian :
  getEdgeKey (0, 1) (0, 0) = "0.00000,0.00000|1.00000,0.00000"%string.
Proof.
  unfold getEdgeKey, latOf, lngOf. simpl fst. simpl snd.
  rewrite (toFixed_nonneg 0 5 0) by (simpl; lra).
  rewrite (toFixed_nonneg 1 5 100000) by (simpl; lra).
  reflexivity.
Qed.

End Numbers.

(** ** Geometry *)

Section Geometry.
Import Scorer.

Lemma smallestAngle_range (a b : R) : 0 <= smallestAngle a b <= 180.
Proof.
  unfold smallestAngle.
  destruct (rem_range (Rabs (a - b)) 360 (Rabs_pos _) ltac:(lra)) as [H1 H2].
  destruct (Rlt_dec 180 _); lra.
Qed.

Lemma smallestAngle_same (a : R) : smallestAngle a a = 0.
Proof.
  unfold smallestAngle. replace (a - a) with 0 by lra. rewrite Rabs_R0.
  rewrite (rem_eval 0 360 0) by lra.
  destruct (Rlt_dec 180 _); lra.
Qed.

Lemma deg_range (theta : R) : 0 <= theta <= 180 → 0 <= theta * PI / 180 <= PI.
Proof. intros H. pose proof PI_RGT_0. split; nra. Qed.

(** Along a meridian the bearing is due north or due south. *)
Lemma meridian_x (lat1 lat2 : R) :
  cos (toRad lat1) * sin (toRad lat2)
    - sin (toRad lat1) * cos (toRad lat2) * cos (toRad 0)
  = sin (toRad (lat2 - lat1)).
Proof.
  unfold toRad. replace (0 * PI / 180) with 0 by lra. rewrite cos_0.
  replace ((lat2 - lat1) * PI / 180) with (lat2 * PI / 180 - lat1 * PI / 180) by lra.
  rewrite sin_minus. lra.
Qed.

Lemma bearing_north (lat1 lat2 lng : R) :
  lat1 < lat2 < lat1 + 180 → computeBearing lat1 lng lat2 lng = 0.
Proof.
  intros H. unfold computeBearing. cbv zeta.
  replace (lng - lng) with 0 by lra. rewrite meridian_x.
  replace (sin (toRad 0)) with 0
    by (unfold toRad; replace (0 * PI / 180) with 0 by lra; by rewrite sin_0).
  rewrite Rmult_0_l.
  pose proof PI_RGT_0.
  rewrite atan2_0_pos.
  2:{ apply sin_gt_0; unfold toRad; nra. }
  rewrite (rem_eval _ _ 1); lra.
Qed.

Lemma bearing_south (lat1 lat2 lng : R) :
  lat2 < lat1 < lat2 + 180 → computeBearing lat1 lng lat2 lng = 180.
Proof.
  intros H. unfold computeBearing. cbv zeta.
  replace (lng - lng) with 0 by lra. rewrite meridian_x.
  replace (sin (toRad 0)) with 0
    by (unfold toRad; replace (0 * PI / 180) with 0 by lra; by rewrite sin_0).
  rewrite Rmult_0_l.
  pose proof PI_RGT_0.
  rewrite atan2_0_neg.
  2:{ apply sin_lt_0_var; unfold toRad; nra. }
  replace (PI * (180 / PI) + 360) with 540 by (field; lra).
  rewrite (rem_eval _ _ 1); lra.
Qed.

Lemma offsetPoint_north (lat0 lon0 d : R) :
  offsetPoint lat0 lon0 0 d = (lon0 + d / (111111 * cos (lat0 * PI / 180)), lat0).
Proof.
  unfold offsetPoint. cbv zeta.
  replace ((0 + 90) * PI / 180) with (PI / 2) by lra.
  rewrite cos_PI2, sin_PI2. f_equal; [f_equal; lra|].
  unfold Rdiv. rewrite Rmult_0_r, Rmult_0_l. lra.
Qed.

Lemma offsetPoint_south (lat0 lon0 d : R) :
  offsetPoint lat0 lon0 180 d = (lon0 - d / (111111 * cos (lat0 * PI / 180)), lat0).
Proof.
  unfold offsetPoint. cbv zeta.
  replace ((180 + 90) * PI / 180) with (3 * (PI / 2)) by lra.
  rewrite cos_3PI2, sin_3PI2. f_equal.
  - unfold Rdiv, Rminus. f_equal. lra.
  - unfold Rdiv. rewrite Rmult_0_r, Rmult_0_l. lra.
Qed.

Lemma haversine_meridian (lat1 lat2 lng : R) :
  0 <= lat2 - lat1 < 180 →
  haversineMeters lat1 lng lat2 lng = 6371000 * toRad (lat2 - lat1).
Proof.
  intros H. unfold haversineMeters. cbv zeta.
  replace (lng - lng) with 0 by lra.
  replace (toRad 0 / 2) with 0 by (unfold toRad; lra).
  rewrite sin_0.
  set (d := toRad (lat2 - lat1) / 2).
  replace (sin d ^ 2 + cos (toRad lat1) * cos (toRad lat2) * 0 ^ 2)
    with (Rsqr (sin d)) by (unfold Rsqr; lra).
  pose proof PI_RGT_0 as Hpi.
  assert (Hd : 0 <= d < PI / 2) by (unfold d, toRad; split; nra).
  assert (Hs : 0 <= sin d) by (apply sin_ge_0; lra).
  assert (Hc : 0 < cos d) by (apply cos_gt_0; lra).
  replace (1 - Rsqr (sin d)) with (Rsqr (cos d)) by (pose proof (sin2_cos2 d); lra).
  rewrite !sqrt_Rsqr by lra.
  unfold JS.atan2. destruct (Rlt_dec 0 (cos d)); [|lra].
  change (sin d / cos d) with (tan d). rewrite atan_tan by lra.
  unfold d. lra.
Qed.

Lemma getEdgeKey_sym (p q : Coord) : getEdgeKey p q = getEdgeKey q p.
Proof.
  unfold getEdgeKey. cbv zeta.
  set (k1 := (JS.toFixed (latOf p) 5 +:+ "," +:+ JS.toFixed (lngOf p) 5)%string).
  set (k2 := (JS.toFixed (latOf q) 5 +:+ "," +:+ JS.toFixed (lngOf q) 5)%string).
  unfold String.ltb. rewrite (String.compare_antisym k1 k2).
  destruct (String.compare k2 k1) eqn:E; simpl; try done.
  apply String.compare_eq_iff in E. by rewrite E.
Qed.

End Geometry.

(** ** The scorer *)

Section ScorerProperties.
Import WindData Scorer.

Lemma segmentAt_stats sp ad h el he ec i c1 c2 ev :
  let seg := fst (segmentAt sp ad h el he ec i c1 c2 ev) in
  let cl := climbOf el he i (latOf c1) (lngOf c1) (latOf c2) (lngOf c2) in
  headwindRaw seg =
    headwindRawOf (windEntry ad
         (nearestIdxOf sp ((latOf c1 + latOf c2) / 2) ((lngOf c1 + lngOf c2) / 2)) h)
      (computeBearing (latOf c1) (lngOf c1) (latOf c2) (lngOf c2))
  ∧ grade seg = fst cl
  ∧ climbPenalty seg = snd cl
  ∧ sufferRaw seg = headwindRaw seg + climbPenalty seg.
Proof.
  unfold segmentAt. cbv zeta.
  destruct (climbOf _ _ _ _ _ _ _) as [g cp].
  destruct (1 <? _)%nat; simpl; auto.
Qed.

Lemma segmentAt_geometry sp ad h el he ec i c1 c2 ev :
  let key := getEdgeKey c1 c2 in
  let bearing := computeBearing (latOf c1) (lngOf c1) (latOf c2) (lngOf c2) in
  let visitsSoFar := JS.orElse (ev !! key) 0 in
  let d := (if (visitsSoFar =? 0)%nat then 1 else -1) * OFFSET_METERS in
  let r := segmentAt sp ad h el he ec i c1 c2 ev in
  if (1 <? JS.orElse (ec !! key) 1)%nat then
    coords (fst r) =
      [offsetPoint (latOf c1) (lngOf c1) bearing d;
       offsetPoint (latOf c2) (lngOf c2) bearing d]
    ∧ snd r = <[key := (visitsSoFar + 1)%nat]> ev
  else coords (fst r) = [c1; c2] ∧ snd r = ev.
Proof.
  unfold segmentAt. cbv zeta.
  destruct (climbOf _ _ _ _ _ _ _) as [g cp].
  destruct (1 <? _)%nat; by simpl.
Qed.

Lemma climbOf_cases el i lat1 lng1 lat2 lng2 :
  let distM := haversineMeters lat1 lng1 lat2 lng2 in
  let raw := (nth (i + 1) el 0 - nth i el 0) / distM in
  let cl := climbOf el true i lat1 lng1 lat2 lng2 in
  (0.1 < distM → fst cl = Rmax (-0.2) (Rmin 0.2 raw))
  ∧ (distM <= 0.1 → cl = (0, 0))
  ∧ (0 < fst cl → snd cl = 80 * fst cl)
  ∧ (fst cl <= 0 → snd cl = 0).
Proof.
  unfold climbOf, GRADE_CLAMP, CLIMB_K. cbv zeta.
  destruct (Rlt_dec 0.1 _) as [Hd|Hd].
  - destruct (Rlt_dec 0 _) as [Hg|Hg]; simpl; repeat split; intros; try lra;
      (replace (-0.2) with (- (0.2)) by lra); reflexivity.
  - simpl. repeat split; intros; lra.
Qed.

Lemma climbOf_nonneg el he i lat1 lng1 lat2 lng2 :
  0 <= snd (climbOf el he i lat1 lng1 lat2 lng2).
Proof.
  destruct he; [|simpl; lra].
  destruct (climbOf_cases el i lat1 lng1 lat2 lng2) as (_ & _ & Hpos & Hneg).
  destruct (Rlt_dec 0 (fst (climbOf el true i lat1 lng1 lat2 lng2))) as [H|H].
  - rewrite (Hpos H). lra.
  - rewrite Hneg; lra.
Qed.

Lemma clamp_cases (raw : R) :
  let g := Rmax (-0.2) (Rmin 0.2 raw) in
  -0.2 <= g <= 0.2
  ∧ (0.2 <= raw → g = 0.2)
  ∧ (raw <= -0.2 → g = -0.2)
  ∧ (-0.2 <= raw <= 0.2 → g = raw).
Proof.
  cbv zeta. unfold Rmax, Rmin.
  destruct (Rle_dec 0.2 raw); destruct (Rle_dec _ _); repeat split; intros; lra.
Qed.

Lemma segmentAt_suffer_nonneg sp ad h el he ec i c1 c2 ev :
  0 <= sufferRaw (fst (segmentAt sp ad h el he ec i c1 c2 ev)).
Proof.
  destruct (segmentAt_stats sp ad h el he ec i c1 c2 ev) as (Hhw & _ & Hcp & ->).
  rewrite Hhw, Hcp. unfold headwindRawOf.
  pose proof (climbOf_nonneg el he i (latOf c1) (lngOf c1) (latOf c2) (lngOf c2)).
  match goal with |- context [Rmax 0 ?x] => pose proof (Rmax_l 0 x) end.
  lra.
Qed.

Lemma maxRawOf_floor (raws : list R) : 1e-6 <= maxRawOf raws.
Proof.
  induction raws as [|x raws IH]; simpl; [lra|].
  etransitivity; [exact IH|apply Rmax_r].
Qed.

Lemma maxRawOf_upper (raws : list R) (x : R) : x ∈ raws → x <= maxRawOf raws.
Proof.
  induction raws as [|y raws IH]; intros Hx; [by apply elem_of_nil in Hx|].
  apply elem_of_cons in Hx as [->|Hx]; simpl.
  - apply Rmax_l.
  - etransitivity; [exact (IH Hx)|apply Rmax_r].
Qed.

Lemma maxRawOf_attained (raws : list R) :
  maxRawOf raws = 1e-6 ∨ maxRawOf raws ∈ raws.
Proof.
  induction raws as [|y raws IH]; [by left|].
  change (maxRawOf (y :: raws)) with (Rmax y (maxRawOf raws)).
  destruct (Rmax_case y (maxRawOf raws) (λ r, r = y ∨ r = maxRawOf raws)) as [E|E];
    [by left|by right| |]; rewrite E.
  - right. apply elem_of_cons. by left.
  - destruct IH as [IH|IH]; [by left|right]. apply elem_of_cons. by right.
Qed.

Section Pass.
Variables (sp : list SamplePoint)
  (ad : list (option (list HourlyWindEntry))) (h : nat)
  (el : list R) (he : bool) (ec : gmap string nat).

Lemma mainPass_step i0 c1 c2 rest ev :
  mainPass sp ad h el he ec i0 (c1 :: c2 :: rest) ev =
  fst (segmentAt sp ad h el he ec i0 c1 c2 ev)
    :: mainPass sp ad h el he ec (S i0) (c2 :: rest)
         (snd (segmentAt sp ad h el he ec i0 c1 c2 ev)).
Proof.
  change (mainPass sp ad h el he ec i0 (c1 :: c2 :: rest) ev) with
    (let '(seg, visited) := segmentAt sp ad h el he ec i0 c1 c2 ev in
     seg :: mainPass sp ad h el he ec (S i0) (c2 :: rest) visited).
  by destruct (segmentAt sp ad h el he ec i0 c1 c2 ev).
Qed.

Lemma mainPass_lookup (cs : list Coord) :
  ∀ (i0 : nat) (ev : gmap string nat) (j : nat) (seg : DebugSegmentStats),
    mainPass sp ad h el he ec i0 cs ev !! j = Some seg →
    ∃ c1 c2 ev',
      cs !! j = Some c1 ∧ cs !! S j = Some c2 ∧
      seg = fst (segmentAt sp ad h el he ec (i0 + j) c1 c2 ev').
Proof.
  induction cs as [|c1 rest IH]; intros i0 ev j seg Hj; [done|].
  destruct rest as [|c2 rest']; [done|].
  rewrite mainPass_step in Hj.
  destruct j as [|j].
  - simpl in Hj. injection Hj as <-. exists c1, c2, ev.
    by rewrite Nat.add_0_r.
  - simpl in Hj. destruct (IH _ _ _ _ Hj) as (a & b & ev' & Ha & Hb & Hs).
    exists a, b, ev'. repeat split; [done..|].
    by replace (i0 + S j)%nat with (S i0 + j)%nat by lia.
Qed.

Lemma mainPass_length (cs : list Coord) :
  ∀ i0 ev, length (mainPass sp ad h el he ec i0 cs ev) = (length cs - 1)%nat.
Proof.
  induction cs as [|c1 rest IH]; intros i0 ev; [done|].
  destruct rest as [|c2 rest']; [done|].
  rewrite mainPass_step. cbn [length]. rewrite IH. simpl. lia.
Qed.

End Pass.

Lemma features_lookup cs sp ad h el inc j f :
  features (buildSegmentCollection cs sp ad h el inc) !! j = Some f →
  ∃ segs seg,
    segs = mainPass sp ad h el (inc && (length el =? length cs)%nat)
             (countEdges cs ∅) 0 cs ∅ ∧
    segs !! j = Some seg ∧
    f = featureOf (maxRawOf (map sufferRaw segs)) seg.
Proof.
  unfold buildSegmentCollection. destruct (length cs <? 2)%nat; [done|].
  cbn [features]. intros H.
  rewrite list_lookup_fmap in H.
  destruct (mainPass _ _ _ _ _ _ _ _ _ !! j) as [seg|] eqn:E; [|done].
  injection H as <-. eauto.
Qed.

Lemma features_shape cs sp ad h el inc :
  ∃ segs,
    features (buildSegmentCollection cs sp ad h el inc) =
      map (featureOf (maxRawOf (map sufferRaw segs))) segs
    ∧ ∀ seg, seg ∈ segs → 0 <= sufferRaw seg.
Proof.
  unfold buildSegmentCollection. destruct (length cs <? 2)%nat.
  - exists []. split; [done|]. intros seg H. by apply elem_of_nil in H.
  - eexists. split; [reflexivity|].
    intros seg Hin. apply list_elem_of_lookup in Hin as [j Hj].
    destruct (mainPass_lookup _ _ _ _ _ _ _ _ _ _ _ Hj) as (c1 & c2 & ev' & _ & _ & ->).
    apply segmentAt_suffer_nonneg.
Qed.

Lemma features_pair c1 c2 sp ad h el inc :
  let seg := fst (segmentAt sp ad h el (inc && (length el =? 2)%nat)
                    (countEdges [c1; c2] ∅) 0 c1 c2 ∅) in
  features (buildSegmentCollection [c1; c2] sp ad h el inc) =
    [featureOf (Rmax (sufferRaw seg) 1e-6) seg].
Proof.
  unfold buildSegmentCollection.
  change (length [c1; c2] <? 2)%nat with false. cbv iota.
  cbn [length features]. cbv zeta. rewrite mainPass_step. reflexivity.
Qed.

Lemma outAndBack_counts :
  countEdges outAndBack ∅ !! getEdgeKey (0, 0) (0, 1) = Some 2%nat.
Proof.
  unfold outAndBack. cbn [countEdges].
  rewrite (getEdgeKey_sym (0, 1) (0, 0)).
  by rewrite lookup_insert_eq, lookup_empty, lookup_insert_eq.
Qed.

(** C8.  A route of fewer than two coordinates, empty or a single
    point, scores to the empty collection, whatever the sample points,
    wind data, hour index, elevations and elevation toggle. *)
Theorem short_route_empty (cs : list Coord) (samplePoints : list SamplePoint)
    (allData : list (option (list HourlyWindEntry))) (hourIndex : nat)
    (elevations : list R) (includeElevation : bool) :
  (length cs < 2)%nat →
  buildSegmentCollection cs samplePoints allData hourIndex elevations
    includeElevation = mkCollection [].
Proof.
  intros H. unfold buildSegmentCollection.
  apply Nat.ltb_lt in H. by rewrite H.
Qed.

Lemma short_route_empty_witness :
  (length [(1, 2)] < 2)%nat ∧
  buildSegmentCollection [(1, 2)] [mkSample 2 1] [None] 3 [7] true = mkCollection [].
Proof.
  split; [simpl; lia|]. apply (short_route_empty [(1, 2)]). simpl. lia.
Defined.

Lemma Math_PI_below : 1.2246e-16 < PI - Binary64.Math_PI < 1.2247e-16.
Proof.
  pose proof (PI_2_3_7_ineq 10) as [Hlo Hhi].
  unfold PI_2_3_7_tg, Ratan_seq, tg_alt in Hlo, Hhi.
  cbn [sum_f_R0 Nat.mul Nat.add] in Hlo, Hhi.
  simpl in Hlo, Hhi.
  unfold Binary64.Math_PI. split; lra.
Qed.

Lemma Math_PI_range : 3 < Binary64.Math_PI < PI.
Proof.
  pose proof Math_PI_below. split; [unfold Binary64.Math_PI|]; lra.
Qed.

Lemma sin_cubic_lower (a : R) : 0 <= a <= 1 → a - a ^ 3 / 6 <= sin a.
Proof.
  intros Ha. pose proof PI2_3_2 as Hpi.
  destruct (SIN a) as [Hlb _]; [lra|lra|].
  unfold sin_lb, sin_approx, sin_term in Hlb. simpl in Hlb.
  assert (H2 : 0 <= a * a <= 1) by nra.
  assert (H5 : 0 <= a * a * a * a * a) by (repeat apply Rmult_le_pos; lra).
  nra.
Qed.

Lemma cos_half_Math_PI : 6.12e-17 < cos (Binary64.Math_PI / 2) < 6.13e-17.
Proof.
  pose proof Math_PI_below as [Hlo Hhi].
  set (a := (PI - Binary64.Math_PI) / 2).
  assert (Ha : 6.123e-17 < a < 6.1235e-17) by (unfold a; lra).
  rewrite cos_sin.
  replace (PI / 2 + Binary64.Math_PI / 2) with (PI - a) by (unfold a; lra).
  rewrite sin_PI_x.
  split.
  - pose proof (sin_cubic_lower a ltac:(lra)) as Hs.
    assert (a ^ 3 / 6 <= a * 1e-5) by nra.
    lra.
  - pose proof (sin_lt_x a ltac:(lra)). lra.
Qed.

Lemma smallestAngle_0_90 : smallestAngle 0 90 = 90.
Proof.
  unfold smallestAngle. cbv zeta.
  replace (0 - 90) with (- (90)) by lra. rewrite Rabs_Ropp, Rabs_pos_eq by lra.
  rewrite (rem_eval _ _ 0) by lra.
  destruct (Rlt_dec 180 _); lra.
Qed.


Lemma headwind_angle_range (theta : R) :
  0 <= theta <= 180 → 0 <= theta * Binary64.Math_PI / 180 <= PI.
Proof. intros Hth. pose proof Math_PI_range as [Hlo Hhi]. split; nra. Qed.

Lemma sin_abs_le (x : R) : Rabs (sin x) <= Rabs x.
Proof.
  destruct (Rtotal_order x 0) as [Hneg|[->|Hpos]].
  - destruct (Rle_dec (-1) x) as [Hx|Hx].
    + pose proof (sin_lt_x (- x) ltac:(lra)) as H1.
      pose proof PI_gt_3.
      pose proof (sin_gt_0 (- x) ltac:(lra) ltac:(lra)) as H2.
      rewrite sin_neg in H1, H2.
      rewrite !Rabs_left by lra. lra.
    + pose proof (SIN_bound x). rewrite (Rabs_left x) by lra.
      apply Rabs_le. lra.
  - rewrite sin_0, Rabs_R0. lra.
  - destruct (Rle_dec x 1) as [Hx|Hx].
    + pose proof (sin_lt_x x Hpos) as H1.
      pose proof PI_gt_3.
      pose proof (sin_gt_0 x ltac:(lra) ltac:(lra)) as H2.
      rewrite !Rabs_pos_eq by lra. lra.
    + pose proof (SIN_bound x). rewrite (Rabs_pos_eq x) by lra.
      apply Rabs_le. lra.
Qed.

Lemma cos_lipschitz (a b : R) : Rabs (cos a - cos b) <= Rabs (a - b).
Proof.
  rewrite form2.
  pose proof (sin_abs_le ((a - b) / 2)) as H1.
  pose proof (SIN_bound ((a + b) / 2)) as H2.
  assert (H3 : Rabs (sin ((a + b) / 2)) <= 1) by (apply Rabs_le; lra).
  assert (H4 : Rabs ((a - b) / 2) = Rabs (a - b) / 2).
  { unfold Rdiv. rewrite Rabs_mult, (Rabs_pos_eq (/ 2)); lra. }
  rewrite H4 in H1.
  rewrite !Rabs_mult. rewrite (Rabs_left (-2)) by lra.
  pose proof (Rabs_pos (sin ((a - b) / 2))).
  pose proof (Rabs_pos (sin ((a + b) / 2))).
  nra.
Qed.

Lemma Rmax_0_lipschitz (x y : R) : Rabs (Rmax 0 x - Rmax 0 y) <= Rabs (x - y).
Proof.
  unfold Rmax. destruct (Rle_dec 0 x), (Rle_dec 0 y);
    unfold Rabs; repeat destruct (Rcase_abs _); lra.
Qed.

(** The headwind with [Math.PI] the double differs from the headwind
    over pi itself by less than [1.3e-16] of the wind speed. *)
Lemma headwind_models_close (e : HourlyWindEntry) (bearing : R) :
  0 <= speed_kmh e →
  Rabs (Binary64.headwindRawOf (Some e) bearing - headwindRawOf (Some e) bearing)
    <= speed_kmh e * 1.3e-16.
Proof.
  intros Hs. unfold Binary64.headwindRawOf, headwindRawOf,
    Binary64.headwindComponent, headwindComponent. cbv zeta.
  pose proof (smallestAngle_range bearing (direction_deg e)) as Hth.
  set (theta := smallestAngle bearing (direction_deg e)) in *.
  set (s := speed_kmh e) in *.
  eapply Rle_trans; [apply Rmax_0_lipschitz|].
  rewrite <- Rmult_minus_distr_l, Rabs_mult, (Rabs_pos_eq s) by exact Hs.
  apply Rmult_le_compat_l; [exact Hs|].
  eapply Rle_trans; [apply cos_lipschitz|].
  pose proof Math_PI_below as [Hlo Hhi].
  replace (theta * Binary64.Math_PI / 180 - theta * PI / 180)
    with (- (theta * (PI - Binary64.Math_PI) / 180)) by lra.
  rewrite Rabs_Ropp, Rabs_pos_eq by nra. nra.
Qed.

(** C3, as amended.  For a wind entry of speed [s >= 0] and a travel
    bearing, with [theta] the angular difference between the bearing and
    the wind's from-direction: the headwind of the entry, and so the
    [headwindRaw] of every segment that travels on this bearing and
    reads this entry, is [max 0 (s * cos (theta * Math.PI / 180))] with
    [Math.PI] the double; it is never negative, is [s] at [theta = 0],
    and does not increase when [theta] grows at the same speed.  At
    [theta = 90] it is not 0 but [s * cos (Math.PI / 2)], between
    [s * 6.12e-17] and [s * 6.13e-17]; from 90 on it stays below that
    bound, and it is 0 from [90 + 1e-14] on. *)
Theorem headwind_of_angle (bearing : R) (e : HourlyWindEntry) :
  0 <= speed_kmh e →
  let s := speed_kmh e in
  let theta := smallestAngle bearing (direction_deg e) in
  let hr := Binary64.headwindRawOf (Some e) bearing in
  hr = Rmax 0 (s * cos (theta * Binary64.Math_PI / 180))
  ∧ (∀ sp ad h c1 c2,
       windEntry ad
         (nearestIdxOf sp ((latOf c1 + latOf c2) / 2) ((lngOf c1 + lngOf c2) / 2))
         h = Some e →
       computeBearing (latOf c1) (lngOf c1) (latOf c2) (lngOf c2) = bearing →
       Binary64.segmentHeadwind sp ad h c1 c2 = hr)
  ∧ 0 <= hr
  ∧ (theta = 0 → hr = s)
  ∧ (theta = 90 → s * 6.12e-17 <= hr <= s * 6.13e-17)
  ∧ (theta = 90 → 0 < s → hr ≠ 0)
  ∧ (90 <= theta → hr <= s * 6.13e-17)
  ∧ (90 + 1e-14 <= theta → hr = 0)
  ∧ (∀ bearing' e',
       speed_kmh e' = s →
       theta <= smallestAngle bearing' (direction_deg e') →
       Binary64.headwindRawOf (Some e') bearing' <= hr).
Proof.
  intros Hs s theta hr. change (0 <= s) in Hs.
  assert (Hhr : hr = Rmax 0 (s * cos (theta * Binary64.Math_PI / 180))) by reflexivity.
  pose proof (smallestAngle_range bearing (direction_deg e)) as Hth.
  fold theta in Hth.
  pose proof Math_PI_range as [Hm3 Hmpi]. pose proof Math_PI_below as [Hlo Hhi].
  pose proof cos_half_Math_PI as [Hclo Hchi].
  assert (Hright : theta = 90 → hr = s * cos (Binary64.Math_PI / 2)).
  { intros H90. rewrite Hhr, H90.
    replace (90 * Binary64.Math_PI / 180) with (Binary64.Math_PI / 2) by lra.
    apply Rmax_right. nra. }
  assert (Hmono : ∀ t, theta <= t <= 180 →
            Rmax 0 (s * cos (t * Binary64.Math_PI / 180)) <= hr).
  { intros t Ht. rewrite Hhr.
    apply Rle_max_compat_l. apply Rmult_le_compat_l; [exact Hs|].
    apply cos_decr_1; try (apply headwind_angle_range; lra). nra. }
  split; [exact Hhr|].
  split.
  { intros sp ad h c1 c2 Hentry Hbearing.
    unfold Binary64.segmentHeadwind. cbv zeta.
    by rewrite Hentry, Hbearing. }
  split; [rewrite Hhr; apply Rmax_l|].
  split.
  { intros H0. rewrite Hhr, H0.
    replace (0 * Binary64.Math_PI / 180) with 0 by lra.
    rewrite cos_0, Rmult_1_r. apply Rmax_right. exact Hs. }
  split; [intros H90; rewrite (Hright H90); split; nra|].
  split; [intros H90 Hpos; rewrite (Hright H90); nra|].
  split.
  { intros H90. rewrite Hhr. apply Rmax_lub; [nra|].
    apply Rle_trans with (s * cos (Binary64.Math_PI / 2)); [|nra].
    apply Rmult_le_compat_l; [exact Hs|].
    replace (Binary64.Math_PI / 2) with (90 * Binary64.Math_PI / 180) by lra.
    apply cos_decr_1; try (apply headwind_angle_range; lra). nra. }
  split.
  { intros H90. rewrite Hhr. apply Rmax_left.
    assert (cos (theta * Binary64.Math_PI / 180) <= 0).
    { apply cos_le_0; nra. }
    nra. }
  intros bearing' e' Hs' Hle.
  pose proof (smallestAngle_range bearing' (direction_deg e')) as Hth'.
  unfold Binary64.headwindRawOf at 1, Binary64.headwindComponent. cbv zeta.
  rewrite Hs'. fold s. apply Hmono. lra.
Qed.

Lemma headwind_of_angle_witness :
  0 <= 20
  ∧ 20 * 6.12e-17
      <= Binary64.headwindRawOf (Some (mkEntry "2026-01-01T00:00" 20 90)) 0
      <= 20 * 6.13e-17.
Proof.
  split; [lra|].
  apply (headwind_of_angle 0 (mkEntry "2026-01-01T00:00" 20 90)).
  - simpl. lra.
  - simpl. apply smallestAngle_0_90.
Defined.

(** C3, counterexample.  A segment heading north along the meridian,
    bearing 0, with a wind of 20 km/h from the east, 90: the angular
    difference is exactly 90, yet [headwindRaw] is not 0 but
    [20 * Math.cos(Math.PI / 2)], about [1.2246e-15]. *)
Lemma headwind_at_right_angle_counterexample :
  let e := mkEntry "2026-01-01T00:00" 20 90 in
  let hr := Binary64.segmentHeadwind [mkSample 0.5 0] [Some [e]] 0 (0, 0) (0, 1) in
  smallestAngle (computeBearing 0 0 1 0) (direction_deg e) = 90
  ∧ 1.224e-15 < hr < 1.226e-15
  ∧ hr ≠ 0.
Proof.
  cbv zeta. unfold Binary64.segmentHeadwind. cbv zeta.
  change (latOf (0, 0)) with 0. change (lngOf (0, 0)) with 0.
  change (latOf (0, 1)) with 1. change (lngOf (0, 1)) with 0.
  rewrite (bearing_north 0 1 0) by lra.
  cbn [direction_deg]. rewrite smallestAngle_0_90.
  change (nearestIdxOf [mkSample 0.5 0] ((0 + 1) / 2) ((0 + 0) / 2)) with O.
  change (windEntry [Some [mkEntry "2026-01-01T00:00" 20 90]] 0 0)
    with (Some (mkEntry "2026-01-01T00:00" 20 90)).
  unfold Binary64.headwindRawOf, Binary64.headwindComponent. cbv zeta.
  cbn [direction_deg speed_kmh]. rewrite smallestAngle_0_90.
  replace (90 * Binary64.Math_PI / 180) with (Binary64.Math_PI / 2) by lra.
  pose proof cos_half_Math_PI as [Hlo Hhi].
  rewrite Rmax_right by lra.
  split; [reflexivity|]. split; lra.
Qed.

(** C4.  With elevation enabled and one elevation per route point, the
    segment between points [j] and [j + 1] has, when its haversine
    distance exceeds 0.1 m, the grade [(elevation[j+1] - elevation[j]) /
    distance] clamped to [-0.2, 0.2], the boundary value itself when the
    ratio lies outside; at 0.1 m or less grade and climb penalty stay 0;
    the climb penalty is [80 * grade] for a positive grade and 0
    otherwise, so the suffer score is never below the headwind. *)
Theorem grade_and_climb cs sp ad h el j f :
  length el = length cs →
  features (buildSegmentCollection cs sp ad h el true) !! j = Some f →
  ∃ c1 c2 ea eb,
    cs !! j = Some c1 ∧ cs !! S j = Some c2 ∧
    el !! j = Some ea ∧ el !! S j = Some eb ∧
    let distM := haversineMeters (latOf c1) (lngOf c1) (latOf c2) (lngOf c2) in
    let raw := (eb - ea) / distM in
    (0.1 < distM →
       p_grade (properties f) = Rmax (-0.2) (Rmin 0.2 raw)
       ∧ (0.2 <= raw → p_grade (properties f) = 0.2)
       ∧ (raw <= -0.2 → p_grade (properties f) = -0.2)
       ∧ (-0.2 <= raw <= 0.2 → p_grade (properties f) = raw))
    ∧ (distM <= 0.1 → p_grade (properties f) = 0 ∧ p_climbPenalty (properties f) = 0)
    ∧ (0 < p_grade (properties f) → p_climbPenalty (properties f) = 80 * p_grade (properties f))
    ∧ (p_grade (properties f) <= 0 → p_climbPenalty (properties f) = 0)
    ∧ p_headwindRaw (properties f) <= p_sufferRaw (properties f).
Proof.
  intros Hlen Hf.
  destruct (features_lookup _ _ _ _ _ _ _ _ Hf) as (segs & seg & Hsegs & Hseg & ->).
  rewrite Hlen, Nat.eqb_refl in Hsegs. simpl in Hsegs. subst segs.
  destruct (mainPass_lookup _ _ _ _ _ _ _ _ _ _ _ Hseg)
    as (c1 & c2 & ev' & Hc1 & Hc2 & ->).
  assert (Hj : (S j < length el)%nat).
  { rewrite Hlen. by apply lookup_lt_Some in Hc2. }
  destruct (lookup_lt_is_Some_2 el j ltac:(lia)) as [ea Hea].
  destruct (lookup_lt_is_Some_2 el (S j) Hj) as [eb Heb].
  exists c1, c2, ea, eb. change (0 + j)%nat with j.
  destruct (segmentAt_stats sp ad h el true
         (countEdges cs ∅) j c1 c2 ev') as (Hhw & Hg & Hcp & Hsr).
  destruct (climbOf_cases el j (latOf c1) (lngOf c1) (latOf c2) (lngOf c2))
         as (Hfar & Hnear & Hpos & Hneg).
  pose proof (climbOf_nonneg el true j (latOf c1) (lngOf c1) (latOf c2)
                (lngOf c2)) as Hcl.
  replace (j + 1)%nat with (S j) in Hfar by lia.
  rewrite (nth_lookup_Some _ _ 0 _ Hea), (nth_lookup_Some _ _ 0 _ Heb) in Hfar.
  cbn [featureOf properties p_grade p_climbPenalty p_headwindRaw p_sufferRaw].
  rewrite Hsr, Hg, Hcp.
  set (cl := climbOf el true j (latOf c1) (lngOf c1) (latOf c2) (lngOf c2)) in *.
  split; [done|]. split; [done|]. split; [done|]. split; [done|].
  cbv zeta.
  split.
  { intros Hd. rewrite (Hfar Hd).
    destruct (clamp_cases ((eb - ea) /
      haversineMeters (latOf c1) (lngOf c1) (latOf c2) (lngOf c2)))
      as (_ & Hhi & Hlo & Hmid).
    auto. }
  split; [intros Hd; by rewrite (Hnear Hd)|].
  split; [exact Hpos|]. split; [exact Hneg|]. lra.
Qed.

Lemma grade_and_climb_witness :
  ∃ f,
    features (buildSegmentCollection meridianDegree [] [] 0 [0; 100] true) !! 0%nat
      = Some f
    ∧ p_headwindRaw (properties f) <= p_sufferRaw (properties f).
Proof.
  eexists. split; [unfold meridianDegree; by rewrite features_pair|].
  destruct (grade_and_climb meridianDegree [] [] 0 [0; 100] 0 _ eq_refl
    ltac:(unfold meridianDegree; by rewrite features_pair))
    as (c1 & c2 & ea & eb & _ & _ & _ & _ & _ & _ & _ & _ & H).
  exact H.
Defined.

(** C2, as amended.  Every segment's normalized score lies in [0,1]
    and equals [totalScore]; when some [sufferRaw] exceeds the floor
    [1e-6], a segment of score 1 exists and every segment of maximal
    [sufferRaw] has score exactly 1; when every [sufferRaw] is exactly 0
    every score is 0; and when every [sufferRaw] is at most the floor
    the score is [sufferRaw / 1e-6]. *)
Theorem normalized_score cs sp ad h el inc :
  let fs := features (buildSegmentCollection cs sp ad h el inc) in
  let raw f := p_sufferRaw (properties f) in
  let norm f := score (properties f) in
  (∀ f, f ∈ fs → 0 <= norm f <= 1 ∧ p_totalScore (properties f) = norm f)
  ∧ ((∃ g, g ∈ fs ∧ 1e-6 < raw g) →
       (∃ f, f ∈ fs ∧ norm f = 1)
       ∧ ∀ f, f ∈ fs → (∀ g, g ∈ fs → raw g <= raw f) → norm f = 1)
  ∧ ((∀ g, g ∈ fs → raw g = 0) → ∀ f, f ∈ fs → norm f = 0)
  ∧ ((∀ g, g ∈ fs → raw g <= 1e-6) → ∀ f, f ∈ fs → norm f = raw f / 1e-6).
Proof.
  intros fs raw norm.
  destruct (features_shape cs sp ad h el inc) as (segs & Hfs & Hpos).
  fold fs in Hfs.
  set (m := maxRawOf (map sufferRaw segs)) in *.
  assert (Hm : 1e-6 <= m) by apply maxRawOf_floor.
  assert (Hin : ∀ f, f ∈ fs → ∃ seg, seg ∈ segs ∧ f = featureOf m seg).
  { intros f Hf. rewrite Hfs in Hf. apply list_elem_of_fmap in Hf as (seg & -> & Hs). eauto. }
  assert (Hout : ∀ seg, seg ∈ segs → featureOf m seg ∈ fs).
  { intros seg Hs. rewrite Hfs. apply list_elem_of_fmap. eauto. }
  assert (Hup : ∀ seg, seg ∈ segs → sufferRaw seg <= m).
  { intros seg Hs. apply maxRawOf_upper. apply list_elem_of_fmap. eauto. }
  split; [|split; [|split]].
  - intros f Hf. destruct (Hin f Hf) as (seg & Hs & ->).
    unfold norm. cbn [featureOf properties p_sufferRaw score p_totalScore]. split; [|done].
    specialize (Hpos seg Hs). specialize (Hup seg Hs).
    split.
    + apply Rmult_le_pos; [done|]. left. apply Rinv_0_lt_compat. lra.
    + apply (Rmult_le_reg_r m); [lra|]. unfold Rdiv.
      rewrite Rmult_assoc, Rinv_l by lra. lra.
  - intros (g & Hg & Hbig).
    destruct (Hin g Hg) as (sg & Hsg & ->). unfold raw in Hbig. cbn [featureOf properties p_sufferRaw score p_totalScore] in Hbig.
    assert (Hmbig : 1e-6 < m) by (specialize (Hup sg Hsg); lra).
    destruct (maxRawOf_attained (map sufferRaw segs)) as [E|E];
      [fold m in E; lra|]. fold m in E.
    apply list_elem_of_fmap in E as (top & Etop & Htop).
    split.
    + exists (featureOf m top). split; [by apply Hout|].
      unfold norm. cbn [featureOf properties p_sufferRaw score p_totalScore]. rewrite <- Etop. field. lra.
    + intros f Hf Hmax. destruct (Hin f Hf) as (seg & Hs & ->).
      specialize (Hmax _ (Hout top Htop)). unfold raw, norm in *. cbn [featureOf properties p_sufferRaw score p_totalScore] in *.
      specialize (Hup seg Hs).
      assert (sufferRaw seg = m) by lra.
      rewrite H. field. lra.
  - intros Hzero f Hf. specialize (Hzero f Hf).
    destruct (Hin f Hf) as (seg & Hs & ->). unfold raw, norm in *. cbn [featureOf properties p_sufferRaw score p_totalScore] in *.
    rewrite Hzero. unfold Rdiv. apply Rmult_0_l.
  - intros Hsmall f Hf.
    destruct (Hin f Hf) as (seg & Hs & ->). unfold raw, norm in *. cbn [featureOf properties p_sufferRaw score p_totalScore].
    assert (m = 1e-6); [|by f_equal].
    destruct (maxRawOf_attained (map sufferRaw segs)) as [E|E]; [done|].
    fold m in E. apply list_elem_of_fmap in E as (top & Etop & Htop).
    specialize (Hsmall _ (Hout top Htop)). cbn [featureOf properties p_sufferRaw score p_totalScore] in Hsmall. lra.
Qed.

(** C2, counterexample.  One degree of meridian climbing half a
    millimetre with no wind: the only segment has a [sufferRaw] between
    0 and the floor [1e-6], yet its normalized score is not 0. *)
Lemma score_below_floor_counterexample :
  let fs := features (buildSegmentCollection meridianDegree [] [] 0 [0; 0.0005] true) in
  (∀ g, g ∈ fs → 0 <= p_sufferRaw (properties g) <= 1e-6)
  ∧ ¬ (∀ f, f ∈ fs → score (properties f) = 0).
Proof.
  unfold meridianDegree. rewrite features_pair. cbv zeta.
  cbn [andb length Nat.eqb].
  pose proof (segmentAt_stats [] [] 0 [0; 0.0005] true
              (countEdges [(0, 0); (0, 1)] ∅) 0 (0, 0) (0, 1) ∅) as Hstats.
  cbv zeta in Hstats.
  set (seg := fst (segmentAt [] [] 0 [0; 0.0005] true _ 0 (0, 0) (0, 1) ∅)) in *.
  destruct Hstats as (Hhw & Hg & Hcp & Hsr).
  destruct (climbOf_cases [0; 0.0005] 0 0 0 1 0) as (Hfar & _ & Hpos & _).
  change (latOf (0, 0)) with 0 in *. change (lngOf (0, 0)) with 0 in *.
  change (latOf (0, 1)) with 1 in *. change (lngOf (0, 1)) with 0 in *.
  rewrite (haversine_meridian 0 1 0) in Hfar by lra.
  simpl nth in Hfar. unfold toRad in Hfar.
  pose proof PI_gt_3 as Hpi.
  set (dist := 6371000 * ((1 - 0) * PI / 180)) in *.
  assert (Hdist : 100000 < dist) by (unfold dist; lra).
  set (raw := (0.0005 - 0) / dist) in *.
  assert (Hraw : raw * dist = 0.0005) by (unfold raw; field; lra).
  assert (Hrange : 0 < raw < 5e-9) by (split; nra).
  destruct (clamp_cases raw) as (_ & _ & _ & Hmid).
  rewrite Hmid in Hfar by lra. specialize (Hfar ltac:(lra)).
  rewrite Hfar in Hpos. specialize (Hpos ltac:(lra)).
  assert (Hsuffer : sufferRaw seg = 80 * raw).
  { rewrite Hsr, Hhw, Hcp, Hpos. unfold windEntry. rewrite lookup_nil.
    unfold headwindRawOf. rewrite Rmax_left; lra. }
  split.
  - intros g Hg'. apply list_elem_of_singleton in Hg' as ->.
    cbn [featureOf properties p_sufferRaw]. rewrite Hsuffer. lra.
  - intros Hzero. specialize (Hzero _ ltac:(by apply list_elem_of_singleton)).
    cbn [featureOf properties score] in Hzero.
    rewrite Hsuffer, Rmax_right in Hzero by lra.
    lra.
Qed.

(** C1.  On the route [[0,0],[0,1],[0,0]] the two traversals of the
    edge are drawn on the same line: the first, northbound, is moved
    +5 m across its bearing and the second, southbound, -5 m across the
    opposite bearing, which is the same side, east.  The second geometry
    is the first one reversed. *)
Theorem out_and_back_overlap sp ad h el inc :
  let A : Coord := (5 / 111111, 0) in
  let B : Coord := (5 / (111111 * cos (PI / 180)), 1) in
  map geometry (features (buildSegmentCollection outAndBack sp ad h el inc))
  = [[A; B]; [B; A]].
Proof.
  intros A B. unfold buildSegmentCollection.
  change (length outAndBack <? 2)%nat with false. cbv iota. cbv zeta.
  cbn [features]. rewrite map_map. cbn [featureOf geometry].
  set (he := inc && _). set (ec := countEdges outAndBack ∅).
  change (mainPass sp ad h el he ec 0 outAndBack ∅)
    with (mainPass sp ad h el he ec 0 [(0, 0); (0, 1); (0, 0)] ∅).
  rewrite !mainPass_step. cbn [mainPass map].
  pose proof (segmentAt_geometry sp ad h el he ec 0 (0, 0) (0, 1) ∅) as H1.
  cbv zeta in H1. fold ec in H1.
  unfold ec in H1 at 1. rewrite outAndBack_counts in H1. fold ec in H1.
  cbn [JS.orElse Nat.ltb Nat.leb] in H1. destruct H1 as [Hc1 Hv1].
  rewrite lookup_empty in Hc1, Hv1. cbn [JS.orElse Nat.eqb Nat.add] in Hc1, Hv1.
  rewrite Hc1, Hv1.
  pose proof (segmentAt_geometry sp ad h el he ec 1 (0, 1) (0, 0)
                (<[getEdgeKey (0, 0) (0, 1) := 1%nat]> ∅)) as H2.
  cbv zeta in H2. rewrite (getEdgeKey_sym (0, 1) (0, 0)) in H2.
  unfold ec in H2 at 1. rewrite outAndBack_counts in H2. fold ec in H2.
  cbn [JS.orElse Nat.ltb Nat.leb] in H2. destruct H2 as [Hc2 _].
  rewrite lookup_insert_eq in Hc2. cbn [JS.orElse Nat.eqb] in Hc2.
  rewrite Hc2.
  unfold latOf, lngOf, OFFSET_METERS. cbn [fst snd].
  rewrite (bearing_north 0 1 0) by lra.
  rewrite (bearing_south 1 0 0) by lra.
  rewrite !offsetPoint_north, !offsetPoint_south.
  replace (0 * PI / 180) with 0 by lra. rewrite cos_0.
  replace (1 * PI / 180) with (PI / 180) by lra.
  assert (Hcos : 0 < cos (PI / 180)).
  { pose proof PI_RGT_0. apply cos_gt_0; lra. }
  unfold A, B. repeat f_equal; field; lra.
Qed.

End ScorerProperties.

(** ** The wind fetch layer *)

Section WindFetchProperties.
Import WindData.

Lemma consistent_init : consistent init.
Proof. split; intros *; unfold init; simpl; by rewrite ?lookup_empty. Qed.

Lemma consistent_fetch lat lon s :
  consistent s → consistent (snd (fetchWindForPoint lat lon s)).
Proof.
  intros [H1 H2 H3 H4 H5 H6]. unfold fetchWindForPoint.
  destruct (cache s !! cacheKey lat lon) as [v|] eqn:Ec; [by split|].
  destruct (inflight s !! cacheKey lat lon) as [p|] eqn:Ei; [by split|].
  simpl. split; simpl.
  - intros k p. rewrite lookup_insert. case_decide as Hk.
    + intros [= <-]. rewrite lookup_insert_eq. eauto.
    + intros Hp. destruct (H1 _ _ Hp) as (rq & Hrq & Hkey).
      exists rq. split; [|done]. rewrite lookup_insert_ne; [done|].
      specialize (H4 _ _ Hrq). lia.
  - intros p rq. rewrite lookup_insert. case_decide as Hp.
    + intros [= <-]. simpl. by rewrite lookup_insert_eq, Hp.
    + intros Hrq. rewrite lookup_insert_ne; [by apply H2|].
      intros Hk. specialize (H2 _ _ Hrq). rewrite <- Hk in H2. congruence.
  - intros k p. rewrite lookup_insert. case_decide as Hk.
    + intros _. by rewrite <- Hk.
    + apply H3.
  - intros p rq. rewrite lookup_insert. case_decide as Hp.
    + intros _. lia.
    + intros Hrq. specialize (H4 _ _ Hrq). lia.
  - intros p rq. rewrite lookup_insert. case_decide as Hp.
    + intros _. subst p. destruct (outcome s !! issued s) as [o|] eqn:Eo; [|done].
      specialize (H6 _ _ Eo). lia.
    + apply H5.
  - intros p o Ho. specialize (H6 _ _ Ho). lia.
Qed.

Lemma consistent_settle getTime p net now s :
  consistent s → consistent (settle getTime p net now s).
Proof.
  intros [H1 H2 H3 H4 H5 H6]. unfold settle.
  destruct (requests s !! p) as [rq|] eqn:Ep; [|by split].
  assert (Hkp := H2 _ _ Ep).
  assert (Hshape : ∀ c o,
    (∀ k, k ≠ r_key rq → c !! k = cache s !! k) →
    consistent (mkStore c (delete (r_key rq) (inflight s))
                  (delete p (requests s)) (<[p := o]> (outcome s)) (issued s))).
  { intros c o Hc. split; simpl.
    - intros k q. rewrite lookup_delete. case_decide as Hk; [done|].
      intros Hq. destruct (H1 _ _ Hq) as (rq' & Hrq' & Hkey).
      exists rq'. split; [|done]. rewrite lookup_delete_ne; [done|].
      intros <-. congruence.
    - intros q rq'. rewrite lookup_delete. case_decide as Hq; [done|].
      intros Hrq'. specialize (H2 _ _ Hrq').
      rewrite lookup_delete_ne; [done|]. intros Hk. rewrite <- Hk in H2. congruence.
    - intros k q. rewrite lookup_delete. case_decide as Hk; [done|].
      intros Hq. rewrite Hc by done. by eapply H3.
    - intros q rq'. rewrite lookup_delete. case_decide; [done|]. apply H4.
    - intros q rq'. rewrite lookup_delete. case_decide as Hq; [done|].
      intros Hrq'. rewrite lookup_insert_ne by done. by eapply H5.
    - intros q o'. rewrite lookup_insert. case_decide as Hq.
      + intros _. subst q. by eapply H4.
      + apply H6. }
  destruct net as [err|[|] status [json|]]; try (apply Hshape; done).
  apply Hshape. intros k Hk. by rewrite lookup_insert_ne.
Qed.

Lemma consistent_step getTime s e : consistent s → consistent (step getTime s e).
Proof.
  destruct e; simpl; [apply consistent_fetch|apply consistent_settle].
Qed.

Lemma consistent_run getTime es : ∀ s, consistent s → consistent (run getTime s es).
Proof.
  induction es as [|e es IH]; intros s Hs; [done|].
  simpl. apply IH. by apply consistent_step.
Qed.

Lemma consistent_reach getTime es : consistent (run getTime init es).
Proof. apply consistent_run, consistent_init. Qed.

Lemma fetch_cached lat lon s v :
  cache s !! cacheKey lat lon = Some v → fetchWindForPoint lat lon s = (Cached v, s).
Proof. intros H. unfold fetchWindForPoint. by rewrite H. Qed.

Lemma fetch_shared lat lon s p :
  cache s !! cacheKey lat lon = None → inflight s !! cacheKey lat lon = Some p →
  fetchWindForPoint lat lon s = (Shared p, s).
Proof. intros Hc Hi. unfold fetchWindForPoint. by rewrite Hc, Hi. Qed.

Lemma fetch_fresh lat lon s :
  cache s !! cacheKey lat lon = None → inflight s !! cacheKey lat lon = None →
  fetchWindForPoint lat lon s =
    (Shared (issued s),
     mkStore (cache s) (<[cacheKey lat lon := issued s]> (inflight s))
       (<[issued s := mkRequest (cacheKey lat lon) lat lon]> (requests s))
       (outcome s) (S (issued s))).
Proof. intros Hc Hi. unfold fetchWindForPoint. by rewrite Hc, Hi. Qed.

Lemma settle_failed getTime p net now s rq err :
  requests s !! p = Some rq → failure net = Some err →
  settle getTime p net now s =
    mkStore (cache s) (delete (r_key rq) (inflight s)) (delete p (requests s))
      (<[p := Rejected err]> (outcome s)) (issued s).
Proof.
  intros Hp Hf. unfold settle. rewrite Hp.
  destruct net as [e|[|] status [json|]]; simpl in Hf; try done;
    by injection Hf as <-.
Qed.

Lemma settle_ok getTime p status json now s rq :
  requests s !! p = Some rq →
  settle getTime p (Http true status (Some json)) now s =
    mkStore (<[r_key rq := parseEntries getTime json now]> (cache s))
      (delete (r_key rq) (inflight s)) (delete p (requests s))
      (<[p := Fulfilled (parseEntries getTime json now)]> (outcome s)) (issued s).
Proof. intros Hp. unfold settle. by rewrite Hp. Qed.

Lemma first_call_pending getTime lat lon :
  requests (run getTime init [Call lat lon]) !! 0%nat
  = Some (mkRequest (cacheKey lat lon) lat lon).
Proof.
  simpl. rewrite fetch_fresh by apply lookup_empty. simpl.
  apply lookup_insert_eq.
Qed.

Lemma cache_kept_step getTime s e k v :
  consistent s → cache s !! k = Some v → cache (step getTime s e) !! k = Some v.
Proof.
  intros Hs Hk. destruct e as [lat lon|p net now]; simpl.
  - unfold fetchWindForPoint.
    destruct (cache s !! cacheKey lat lon); [done|].
    by destruct (inflight s !! cacheKey lat lon).
  - unfold settle. destruct (requests s !! p) as [rq|] eqn:Ep; [|done].
    assert (Hi := pending_inflight _ Hs _ _ Ep).
    assert (Hc := inflight_uncached _ Hs _ _ Hi).
    destruct net as [err|[|] status [json|]]; simpl; try done.
    rewrite lookup_insert_ne; [done|]. intros <-. congruence.
Qed.

Lemma cache_kept_run getTime es k v :
  ∀ s, consistent s → cache s !! k = Some v →
       cache (run getTime s es) !! k = Some v.
Proof.
  induction es as [|e es IH]; intros s Hs Hk; [done|]. simpl.
  apply IH; [by apply consistent_step|by apply cache_kept_step].
Qed.

Lemma imap_rows (times : list string) :
  ∀ (speeds dirs : list R),
    length speeds = length times → length dirs = length times →
    imap (λ i t, mkEntry t (JS.round (nth i speeds 0 * 10) / 10)
                   (JS.round (nth i dirs 0))) times
    = map roundedEntry (zip times (zip speeds dirs)).
Proof.
  induction times as [|t times IH]; intros speeds dirs Hs Hd; [done|].
  destruct speeds as [|sp speeds]; [done|]. destruct dirs as [|dr dirs]; [done|].
  rewrite imap_cons. simpl. f_equal.
  rewrite <- IH by (simpl in *; lia). by apply imap_ext.
Qed.

Lemma filter_map_rows {A B} (f : A → B) (P : B → bool) (l : list A) :
  List.filter P (map f l) = map f (List.filter (λ a, P (f a)) l).
Proof.
  induction l as [|a l IH]; [done|]. simpl.
  destruct (P (f a)); simpl; by rewrite IH.
Qed.

Lemma filter_In_elem {A} (P : A → bool) (l : list A) (x : A) :
  x ∈ List.filter P l → x ∈ l ∧ P x = true.
Proof. rewrite !list_elem_of_In. apply filter_In. Qed.

Lemma take_elem {A} (n : nat) (l : list A) (x : A) : x ∈ take n l → x ∈ l.
Proof.
  intros H. apply list_elem_of_lookup in H as [i Hi].
  apply lookup_take_Some in Hi as [Hi _]. apply list_elem_of_lookup. eauto.
Qed.

Lemma parseEntries_retained getTime json now :
  length (windspeed_10m json) = length (hourly_time json) →
  length (winddirection_10m json) = length (hourly_time json) →
  parseEntries getTime json now = retained getTime json now.
Proof.
  intros Hs Hd. unfold parseEntries, retained, fetchedRows. cbv zeta.
  rewrite (imap_rows _ _ _ Hs Hd), filter_map_rows, <- fmap_take.
  done.
Qed.

Lemma parseEntries_none getTime json now :
  (∀ t ms, t ∈ hourly_time json → getTime t = Some ms → (ms < now)%Z) →
  parseEntries getTime json now = [].
Proof.
  intros Hpast. unfold parseEntries. cbv zeta.
  match goal with |- take 24 ?l = [] => assert (l = []) as ->; [|done] end.
  match goal with |- ?l = [] => destruct l as [|e rest] eqn:E; [done|] end.
  exfalso.
  assert (He : e ∈ e :: rest) by (apply elem_of_cons; by left).
  rewrite <- E in He. apply filter_In_elem in He as [He Hfut].
  apply elem_of_lookup_imap in He as (i & t & -> & Ht).
  unfold isFuture in Hfut. simpl in Hfut.
  destruct (getTime t) as [ms|] eqn:Et; [|done].
  assert (t ∈ hourly_time json) by (apply list_elem_of_lookup; eauto).
  specialize (Hpast t ms H Et). lia.
Qed.

(** C5.  In every store the module can reach: no two outstanding
    requests share a key; a call for a cached key returns the cached
    array and a call for an in-flight key returns the promise in flight,
    still pending, both leaving the store as it is, while a call for a
    key that is neither issues one request under a fresh promise; and
    two calls in a row whose coordinates round to the same key, neither
    cached nor in flight, share one promise and issue exactly one
    request. *)
Theorem single_flight (getTime : string → option Z) (es : list Event) :
  let s := run getTime init es in
  (∀ p q rq rq',
     requests s !! p = Some rq → requests s !! q = Some rq' →
     r_key rq = r_key rq' → p = q)
  ∧ (∀ lat lon,
       let k := cacheKey lat lon in
       let r := fetchWindForPoint lat lon s in
       match cache s !! k, inflight s !! k with
       | Some v, _ => r = (Cached v, s)
       | None, Some p => r = (Shared p, s) ∧ is_Some (requests s !! p)
       | None, None =>
           fst r = Shared (issued s)
           ∧ issued (snd r) = S (issued s)
           ∧ requests (snd r) = <[issued s := mkRequest k lat lon]> (requests s)
           ∧ inflight (snd r) !! k = Some (issued s)
       end)
  ∧ (∀ lat1 lon1 lat2 lon2,
       cacheKey lat1 lon1 = cacheKey lat2 lon2 →
       cache s !! cacheKey lat1 lon1 = None →
       inflight s !! cacheKey lat1 lon1 = None →
       let r1 := fetchWindForPoint lat1 lon1 s in
       let r2 := fetchWindForPoint lat2 lon2 (snd r1) in
       fst r2 = fst r1
       ∧ snd r2 = snd r1
       ∧ issued (snd r2) = S (issued s)
       ∧ requests (snd r2) =
           <[issued s := mkRequest (cacheKey lat1 lon1) lat1 lon1]> (requests s)).
Proof.
  intros s. pose proof (consistent_reach getTime es) as Hs. fold s in Hs.
  split; [|split].
  - intros p q rq rq' Hp Hq Hk.
    apply (pending_inflight _ Hs) in Hp, Hq. rewrite Hk in Hp. congruence.
  - intros lat lon k r.
    destruct (cache s !! k) as [v|] eqn:Ec; [by apply fetch_cached|].
    destruct (inflight s !! k) as [p|] eqn:Ei.
    + split; [by apply fetch_shared|].
      destruct (inflight_pending _ Hs _ _ Ei) as (rq & Hrq & _). eauto.
    + unfold r. rewrite fetch_fresh by done. simpl.
      by rewrite lookup_insert_eq.
  - intros lat1 lon1 lat2 lon2 Hk Hc Hi r1 r2.
    unfold r2, r1. rewrite (fetch_fresh lat1 lon1) by done. cbn [fst snd].
    rewrite (fetch_shared lat2 lon2 _ (issued s)); [done|by rewrite <- Hk|].
    simpl. by rewrite <- Hk, lookup_insert_eq.
Qed.

Lemma single_flight_witness :
  cacheKey 43.65 (-79.4) = cacheKey 43.65001 (-79.40002)
  ∧ issued (snd (fetchWindForPoint 43.65001 (-79.40002)
                   (snd (fetchWindForPoint 43.65 (-79.4) init)))) = 1%nat.
Proof.
  assert (Hk : cacheKey 43.65 (-79.4) = cacheKey 43.65001 (-79.40002))
    by (by rewrite cacheKey_toronto, cacheKey_nearby).
  split; [exact Hk|].
  destruct (single_flight (λ _, None) []) as (_ & _ & Htwo).
  destruct (Htwo 43.65 (-79.4) 43.65001 (-79.40002) Hk
              (lookup_empty _) (lookup_empty _)) as (_ & _ & Hissued & _).
  exact Hissued.
Defined.

(** C6.  When the outstanding request of promise [p] succeeds with
    three hourly arrays of equal length: the series resolved and cached
    under the key is the fetched rows not before [now], cut to the first
    24, with rounded speed and direction; it has at most 24 entries,
    each from a fetched row with a time not before [now], a speed that
    is a multiple of 0.1 within 0.05 of the fetched one and a direction
    that is an integer within 0.5 of the fetched one; the in-flight
    entry and the request are gone. *)
Theorem fetch_success (getTime : string → option Z) (es : list Event)
    (p : nat) (rq : Request) (status : nat) (json : Forecast) (now : Z) :
  let s := run getTime init es in
  let s' := settle getTime p (Http true status (Some json)) now s in
  let k := r_key rq in
  let entries := retained getTime json now in
  requests s !! p = Some rq →
  length (windspeed_10m json) = length (hourly_time json) →
  length (winddirection_10m json) = length (hourly_time json) →
  cache s' !! k = Some entries
  ∧ outcome s' !! p = Some (Fulfilled entries)
  ∧ inflight s' !! k = None
  ∧ requests s' !! p = None
  ∧ (length entries <= 24)%nat
  ∧ (∀ e, e ∈ entries →
       (∃ ms, getTime (time e) = Some ms ∧ (now <= ms)%Z)
       ∧ ∃ i sp dr (z1 z2 : Z),
           hourly_time json !! i = Some (time e)
           ∧ windspeed_10m json !! i = Some sp
           ∧ winddirection_10m json !! i = Some dr
           ∧ speed_kmh e = IZR z1 / 10 ∧ Rabs (speed_kmh e - sp) <= 1 / 20
           ∧ direction_deg e = IZR z2 ∧ Rabs (direction_deg e - dr) <= 1 / 2).
Proof.
  intros s s' k entries Hp Hs Hd.
  unfold s'. rewrite (settle_ok _ _ _ _ _ _ _ Hp). fold k. simpl.
  rewrite (parseEntries_retained _ _ _ Hs Hd). fold entries.
  split; [apply lookup_insert_eq|]. split; [apply lookup_insert_eq|].
  split; [apply lookup_delete_eq|]. split; [apply lookup_delete_eq|].
  split.
  { unfold entries, retained. rewrite length_map, length_take. lia. }
  intros e He. unfold entries, retained in He.
  apply list_elem_of_fmap in He as (row & -> & Hrow).
  apply take_elem, filter_In_elem in Hrow as [Hrow Hfut].
  destruct row as [t [sp dr]]. unfold notBefore in Hfut. simpl in *.
  split.
  { destruct (getTime t) as [ms|]; [|done]. exists ms. split; [done|]. lia. }
  apply list_elem_of_lookup in Hrow as [i Hi]. unfold fetchedRows in Hi.
  apply lookup_zip_with_Some in Hi as (t' & [sp' dr'] & [= <- <- <-] & Ht & Hz).
  apply lookup_zip_with_Some in Hz as (a & b & [= <- <-] & Ha & Hb).
  destruct (round_tenth sp) as (z1 & Hz1 & Hb1).
  destruct (round_nearest dr) as (z2 & Hz2 & Hb2).
  exists i, sp, dr, z1, z2. done.
Qed.

Lemma fetch_success_witness :
  let getTime := λ t : string, if String.eqb t "2026-01-01T00:00" then Some 10%Z else Some 30%Z in
  let json := mkForecast ["2026-01-01T00:00"; "2026-01-01T01:00"]%string
                [12.34; 7] [181.5; 90] in
  let s := run getTime init [Call 43.65 (-79.4)] in
  let s' := settle getTime 0 (Http true 200 (Some json)) 20 s in
  cache s' !! cacheKey 43.65 (-79.4) = Some (retained getTime json 20)
  ∧ retained getTime json 20
    = [mkEntry "2026-01-01T01:00" (JS.round (7 * 10) / 10) (JS.round 90)].
Proof.
  intros getTime json s s'.
  destruct (fetch_success getTime [Call 43.65 (-79.4)] 0
              (mkRequest (cacheKey 43.65 (-79.4)) 43.65 (-79.4)) 200 json 20
              (first_call_pending _ _ _) eq_refl eq_refl) as (Hc & _).
  split; [exact Hc|reflexivity].
Defined.

(** C7.  When the outstanding request of promise [p] fails (network
    error, non-2xx status or unreadable body): the in-flight entry of
    its key is cleared; [p], which every caller that arrived while the
    request was in flight holds, is rejected with the error; the cache
    is unchanged and has no entry for the key; the next call for the key
    issues a new request; other keys and promises are untouched. *)
Theorem fetch_failure (getTime : string → option Z) (es : list Event)
    (p : nat) (rq : Request) (net : NetResult) (now : Z) (err : string) :
  let s := run getTime init es in
  let s' := settle getTime p net now s in
  let k := r_key rq in
  requests s !! p = Some rq →
  failure net = Some err →
  inflight s' !! k = None
  ∧ outcome s' !! p = Some (Rejected err)
  ∧ cache s' = cache s
  ∧ cache s' !! k = None
  ∧ (∀ lat lon, cacheKey lat lon = k → fetchWindForPoint lat lon s = (Shared p, s))
  ∧ (∀ lat lon, cacheKey lat lon = k →
       let r := fetchWindForPoint lat lon s' in
       fst r = Shared (issued s')
       ∧ issued (snd r) = S (issued s')
       ∧ requests (snd r) !! issued s' = Some (mkRequest k lat lon))
  ∧ (∀ k', k' ≠ k → inflight s' !! k' = inflight s !! k')
  ∧ (∀ p', p' ≠ p →
       requests s' !! p' = requests s !! p' ∧ outcome s' !! p' = outcome s !! p').
Proof.
  intros s s' k Hp Hf.
  pose proof (consistent_reach getTime es) as Hs. fold s in Hs.
  assert (Hi := pending_inflight _ Hs _ _ Hp). fold k in Hi.
  assert (Hc := inflight_uncached _ Hs _ _ Hi).
  unfold s'. rewrite (settle_failed _ _ _ _ _ _ _ Hp Hf). fold k. simpl.
  split; [apply lookup_delete_eq|]. split; [apply lookup_insert_eq|].
  split; [done|]. split; [done|].
  split; [intros lat lon <-; by apply fetch_shared|].
  split.
  { intros lat lon Hk. rewrite fetch_fresh; simpl.
    - by rewrite lookup_insert_eq, Hk.
    - by rewrite Hk.
    - rewrite Hk. apply lookup_delete_eq. }
  split; [intros k' Hk'; by apply lookup_delete_ne|].
  intros p' Hp'. by rewrite lookup_delete_ne, lookup_insert_ne.
Qed.

Lemma fetch_failure_witness :
  let s := run (λ _, None) init [Call 43.65 (-79.4)] in
  let s' := settle (λ _, None) 0 (Http false 503 None) 0 s in
  failure (Http false 503 None) = Some "Open-Meteo HTTP 503"%string
  ∧ outcome s' !! 0%nat = Some (Rejected "Open-Meteo HTTP 503")
  ∧ inflight s' !! cacheKey 43.65 (-79.4) = None.
Proof.
  intros s s'. split; [reflexivity|].
  destruct (fetch_failure (λ _, None) [Call 43.65 (-79.4)] 0
              (mkRequest (cacheKey 43.65 (-79.4)) 43.65 (-79.4))
              (Http false 503 None) 0 "Open-Meteo HTTP 503"
              (first_call_pending _ _ _) eq_refl) as (Hin & Hout & _).
  split; [exact Hout|exact Hin].
Defined.

(** C10.  When a request succeeds with every timestamp before [now],
    the empty list is cached under its key; after any further calls and
    request completions a call whose coordinates round to that key
    returns the cached empty list and leaves the store unchanged, and no
    outstanding request carries that key. *)
Theorem empty_success_cached (getTime : string → option Z) (es : list Event)
    (p : nat) (rq : Request) (status : nat) (json : Forecast) (now : Z) :
  let s := run getTime init es in
  let s' := settle getTime p (Http true status (Some json)) now s in
  let k := r_key rq in
  requests s !! p = Some rq →
  (∀ t ms, t ∈ hourly_time json → getTime t = Some ms → (ms < now)%Z) →
  cache s' !! k = Some []
  ∧ outcome s' !! p = Some (Fulfilled [])
  ∧ ∀ es' lat lon,
      cacheKey lat lon = k →
      let s'' := run getTime s' es' in
      fetchWindForPoint lat lon s'' = (Cached [], s'')
      ∧ (∀ q rq', requests s'' !! q = Some rq' → r_key rq' ≠ k).
Proof.
  intros s s' k Hp Hpast.
  pose proof (consistent_reach getTime es) as Hs. fold s in Hs.
  assert (Hs' : consistent s') by by apply consistent_settle.
  assert (Hc : cache s' !! k = Some []).
  { unfold s'. rewrite (settle_ok _ _ _ _ _ _ _ Hp). simpl.
    rewrite (parseEntries_none _ _ _ Hpast). apply lookup_insert_eq. }
  split; [done|]. split.
  { unfold s'. rewrite (settle_ok _ _ _ _ _ _ _ Hp). simpl.
    rewrite (parseEntries_none _ _ _ Hpast). apply lookup_insert_eq. }
  intros es' lat lon Hk s''.
  assert (Hc'' : cache s'' !! k = Some []) by by apply cache_kept_run.
  split; [apply fetch_cached; by rewrite Hk|].
  intros q rq' Hq Hkey.
  assert (Hs'' : consistent s'') by by apply consistent_run.
  assert (Hi := pending_inflight _ Hs'' _ _ Hq).
  assert (Hn := inflight_uncached _ Hs'' _ _ Hi). rewrite Hkey in Hn. congruence.
Qed.

Lemma empty_success_cached_witness :
  let getTime := λ _ : string, Some 10%Z in
  let json := mkForecast ["2026-01-01T00:00"]%string [12.34] [181.5] in
  let s := run getTime init [Call 43.65 (-79.4)] in
  let s' := settle getTime 0 (Http true 200 (Some json)) 20 s in
  fetchWindForPoint 43.65001 (-79.40002) s' = (Cached [], s').
Proof.
  intros getTime json s s'.
  destruct (empty_success_cached getTime [Call 43.65 (-79.4)] 0
              (mkRequest (cacheKey 43.65 (-79.4)) 43.65 (-79.4)) 200 json 20
              (first_call_pending _ _ _)) as (_ & _ & Hlater).
  { intros t ms _ [= <-]. lia. }
  apply (Hlater [] 43.65001 (-79.40002)).
  simpl. by rewrite cacheKey_toronto, cacheKey_nearby.
Defined.

End WindFetchProperties.

(** ** The pool *)

Section PoolProperties.
Import Pool.

Lemma serve_spec (k : nat) (q : list nat) :
  ∀ a, ∃ taken,
    q = taken ++ (serve k q a).1
    ∧ (serve k q a).2 = a ++ taken
    ∧ ((length a ≤ k)%nat → (length (serve k q a).2 ≤ k)%nat)
    ∧ ((serve k q a).1 ≠ [] → (k ≤ length (serve k q a).2)%nat).
Proof.
  induction q as [|t q IH]; intros a.
  - exists []. simpl. rewrite app_nil_r. repeat split; congruence.
  - simpl. destruct (length a <? k)%nat eqn:E.
    + destruct (IH (a ++ [t])) as (taken & Hq & Ha & Hb & Hf).
      destruct (serve k q (a ++ [t])) as [q' a']. simpl in *. subst q a'.
      exists (t :: taken). rewrite <- app_assoc in *. simpl in *.
      split; [done|]. split; [done|]. split; [|done].
      intros _. apply Hb.
      apply Nat.ltb_lt in E. rewrite length_app. simpl. lia.
    + exists []. simpl. rewrite app_nil_r. apply Nat.ltb_ge in E.
      repeat split; done.
Qed.

Lemma filter_out (t : nat) (l : list nat) :
  NoDup l → t ∈ l → l ≡ₚ t :: List.filter (λ u, negb (u =? t)%nat) l.
Proof.
  induction 1 as [|x l Hx Hnd IH]; intros Ht; [by apply elem_of_nil in Ht|].
  simpl. apply elem_of_cons in Ht as [<-|Ht].
  - rewrite Nat.eqb_refl. simpl. f_equiv.
    clear IH Hnd. induction l as [|y l IHl]; [done|]. simpl.
    apply not_elem_of_cons in Hx as [Hne Hx].
    destruct (y =? t)%nat eqn:E; [apply Nat.eqb_eq in E; congruence|].
    simpl. f_equiv. by apply IHl.
  - destruct (x =? t)%nat eqn:E.
    + apply Nat.eqb_eq in E. subst x. done.
    + simpl. rewrite (IH Ht) at 1. apply Permutation_swap.
Qed.

Lemma accounted_start n k : accounted n k (start n k).
Proof.
  unfold start. destruct (serve_spec k (seq 0 n) []) as (taken & Hq & Ha & Hb & Hf).
  destruct (serve k (seq 0 n) []) as [q a]. simpl in *. subst a.
  split; simpl.
  - apply Hb. lia.
  - rewrite app_nil_r, Hq. apply Permutation_app_comm.
  - done.
Qed.

Lemma accounted_finish n k s ev :
  accounted n k s → accounted n k (finish k s ev).
Proof.
  intros [Hb Hp Hf]. destruct ev as [t ok]. unfold finish.
  case_bool_decide as Ht; [|by split].
  assert (Hnd : NoDup (active s)).
  { assert (NoDup (queue s ++ active s ++ map fst (settled s))) as Hall
      by (rewrite Hp; apply NoDup_seq).
    apply NoDup_app in Hall as (_ & _ & Hall). by apply NoDup_app in Hall as (? & _ & _). }
  pose proof (filter_out t _ Hnd Ht) as Hperm.
  set (released := List.filter (λ u, negb (u =? t)%nat) (active s)) in *.
  assert (Hlen : length (active s) = S (length released)).
  { by rewrite Hperm. }
  destruct (serve_spec k (queue s) released) as (taken & Hq & Ha & Hb' & Hf').
  destruct (serve k (queue s) released) as [q a]. simpl in *. subst a.
  split; simpl.
  - apply Hb'. lia.
  - rewrite <- Hp, Hq, Hperm, map_app. simpl. solve_Permutation.
  - done.
Qed.

Lemma accounted_run n k evs : ∀ s, accounted n k s → accounted n k (run k s evs).
Proof.
  induction evs as [|ev evs IH]; intros s Hs; [done|].
  simpl. apply IH. by apply accounted_finish.
Qed.

Lemma accounted_size n k s :
  accounted n k s →
  (length (queue s) + length (active s) + length (settled s) = n)%nat.
Proof.
  intros [_ Hp _]. apply Permutation_length in Hp.
  rewrite !length_app, length_map, length_seq in Hp. lia.
Qed.

Lemma finish_enabled_settled k s ev :
  ev.1 ∈ active s → settled (finish k s ev) = settled s ++ [ev].
Proof.
  intros Ht. destruct ev as [t ok]. unfold finish.
  rewrite bool_decide_eq_true_2 by done.
  by destruct (serve k (queue s) _).
Qed.

Lemma enabled_settled k evs :
  ∀ s, enabled k s evs →
       length (settled (run k s evs)) = (length (settled s) + length evs)%nat.
Proof.
  induction evs as [|ev evs IH]; intros s Hen; simpl; [lia|].
  destruct Hen as [Ht Hen].
  change (run k s (ev :: evs)) with (run k (finish k s ev) evs).
  rewrite (IH _ Hen), (finish_enabled_settled _ _ _ Ht), length_app.
  simpl. lia.
Qed.

Lemma forallb_all_ok (l : list (nat * bool)) :
  forallb snd l = true ↔ ∀ t ok, (t, ok) ∈ l → ok = true.
Proof.
  rewrite forallb_forall. split.
  - intros H t ok Hin. apply (H (t, ok)). by apply list_elem_of_In.
  - intros H [t ok] Hin. apply (H t). by apply list_elem_of_In.
Qed.

(** C9.  The pool started on [n] tasks with limit [k], after any
    sequence of settlements: at most [k] tasks are active; while its
    promise is pending and [k] is positive some task is running, so the
    pool waits on its tasks only; its promise settles only when all [n]
    tasks have settled, resolved exactly when none failed; and a
    schedule that settles active tasks one by one, successes and
    failures alike, has settled as many tasks as it has events, never
    more than [n], and has settled the pool once it has [n]. *)
Theorem pool_contract (n k : nat) (evs : list (nat * bool)) :
  let s := run k (start n k) evs in
  (length (active s) ≤ k)%nat
  ∧ ((1 ≤ k)%nat → result s = None → ∃ t, t ∈ active s)
  ∧ (∀ b, result s = Some b →
       map fst (settled s) ≡ₚ seq 0 n
       ∧ (b = true ↔ ∀ t ok, (t, ok) ∈ settled s → ok = true))
  ∧ (enabled k (start n k) evs →
       length (settled s) = length evs
       ∧ (length evs ≤ n)%nat
       ∧ (length evs = n → is_Some (result s))).
Proof.
  intros s.
  assert (Hs : accounted n k s) by apply accounted_run, accounted_start.
  pose proof (accounted_size _ _ _ Hs) as Hsize.
  destruct Hs as [Hb Hp Hf].
  split; [done|]. split; [|split].
  - intros Hk Hres. unfold result in Hres.
    destruct (active s) as [|t a] eqn:Ea.
    + destruct (queue s) as [|u q] eqn:Eq; [done|].
      specialize (Hf ltac:(done)). simpl in Hf. lia.
    + exists t. apply elem_of_cons. by left.
  - intros b Hres. unfold result in Hres.
    destruct (queue s) as [|u q] eqn:Eq; [|done].
    destruct (active s) as [|t a] eqn:Ea; [|done].
    injection Hres as <-. split; [exact Hp|].
    rewrite <- forallb_all_ok. done.
  - intros Hen. pose proof (enabled_settled _ _ _ Hen) as Hlen.
    fold s in Hlen.
    assert (Hstart : settled (start n k) = []).
    { unfold start. by destruct (serve k (seq 0 n) []). }
    rewrite Hstart in Hlen. simpl in Hlen.
    split; [done|]. split; [lia|].
    intros Hn. unfold result.
    destruct (queue s); [|simpl in Hsize; lia].
    destruct (active s); [eauto|simpl in Hsize; lia].
Qed.

Lemma pool_contract_witness :
  let evs := [(1%nat, false); (0%nat, true); (2%nat, true)] in
  enabled 2 (start 3 2) evs ∧ result (run 2 (start 3 2) evs) = Some false.
Proof.
  intros evs.
  assert (Hen : enabled 2 (start 3 2) evs).
  { vm_compute. repeat split; apply list_elem_of_In; simpl; auto. }
  split; [exact Hen|].
  destruct (pool_contract 3 2 evs) as (_ & _ & _ & Hdone).
  destruct (Hdone Hen) as (_ & _ & Hsome).
  destruct (Hsome eq_refl) as [b Hb]. rewrite Hb. f_equal.
  vm_compute in Hb. congruence.
Defined.

End PoolProperties.

(** * Further properties *)

(** ** Sample points *)

Section SamplingProperties.
Import Scorer Sampling Reference.

Lemma roundInt_mono (x y : R) : x <= y → (roundInt x ≤ roundInt y)%Z.
Proof.
  intros Hxy. unfold roundInt.
  pose proof (Int_part_bounds (x + 1 / 2)) as Hx.
  pose proof (Int_part_bounds (y + 1 / 2)) as Hy.
  assert (H : IZR (Int_part (x + 1 / 2)) < IZR (Int_part (y + 1 / 2) + 1)).
  { rewrite plus_IZR. lra. }
  apply lt_IZR in H. lia.
Qed.

Lemma roundInt_IZR (z : Z) : roundInt (IZR z) = z.
Proof. unfold roundInt. apply Int_part_eq. lra. Qed.

Lemma sample_arg_nonneg (len n i : nat) :
  (1 ≤ len)%nat → 0 <= INR i / Rmax (INR n - 1) 1 * (INR len - 1).
Proof.
  intros Hlen. pose proof (pos_INR i) as Hi.
  assert (Hm : 0 < Rmax (INR n - 1) 1) by (pose proof (Rmax_r (INR n - 1) 1); lra).
  assert (Hl : 1 <= INR len) by (apply (le_INR 1); lia).
  apply Rmult_le_pos; [|lra].
  apply Rmult_le_pos; [done|]. left. by apply Rinv_0_lt_compat.
Qed.

Lemma sampleIndex_range (len n i : nat) :
  (1 ≤ len)%nat → (0 ≤ sampleIndex len n i ≤ Z.of_nat len - 1)%Z.
Proof.
  intros Hlen. unfold sampleIndex. cbv zeta.
  pose proof (roundInt_mono 0 _ (sample_arg_nonneg len n i Hlen)) as H0.
  change 0 with (IZR 0) in H0 at 1. rewrite roundInt_IZR in H0. lia.
Qed.

Lemma sampleIndex_first (len n : nat) : (1 ≤ len)%nat → sampleIndex len n 0 = 0%Z.
Proof.
  intros Hlen. unfold sampleIndex. cbv zeta.
  replace (INR 0 / Rmax (INR n - 1) 1 * (INR len - 1)) with (IZR 0)
    by (simpl; unfold Rdiv; rewrite !Rmult_0_l; done).
  rewrite roundInt_IZR. lia.
Qed.

Lemma sampleIndex_last (len n : nat) :
  (1 ≤ len)%nat → (2 ≤ n)%nat →
  sampleIndex len n (n - 1) = (Z.of_nat len - 1)%Z.
Proof.
  intros Hlen Hn. unfold sampleIndex. cbv zeta.
  assert (Hn1 : INR (n - 1) = INR n - 1) by (rewrite minus_INR by lia; done).
  assert (Hge : 1 <= INR n - 1).
  { rewrite <- Hn1. apply (le_INR 1). lia. }
  rewrite Hn1, Rmax_left by done.
  replace ((INR n - 1) / (INR n - 1) * (INR len - 1))
    with (IZR (Z.of_nat len - 1)).
  - rewrite roundInt_IZR. lia.
  - rewrite minus_IZR, <- INR_IZR_INZ. field. lra.
Qed.

Lemma sampleIndex_mono (len n i j : nat) :
  (1 ≤ len)%nat → (i ≤ j)%nat →
  (sampleIndex len n i ≤ sampleIndex len n j)%Z.
Proof.
  intros Hlen Hij. unfold sampleIndex. cbv zeta.
  apply Z.min_le_compat_r, roundInt_mono.
  assert (Hm : 0 < Rmax (INR n - 1) 1) by (pose proof (Rmax_r (INR n - 1) 1); lra).
  assert (Hl : 1 <= INR len) by (apply (le_INR 1); lia).
  apply Rmult_le_compat_r; [lra|].
  apply Rmult_le_compat_r; [left; by apply Rinv_0_lt_compat|].
  by apply le_INR.
Qed.
Lemma sample_lookup (coords : list Coord) (n i : nat) :
  coords ≠ [] → (i < n)%nat →
  ∃ c, coords !! Z.to_nat (sampleIndex (length coords) n i) = Some c
       ∧ sampleRoutePoints coords n !! i = Some (mkSample (latOf c) (lngOf c)).
Proof.
  intros Hne Hi.
  assert (Hlen : (1 ≤ length coords)%nat) by (destruct coords; [done|simpl; lia]).
  pose proof (sampleIndex_range (length coords) n i Hlen) as Hr.
  destruct (lookup_lt_is_Some_2 coords (Z.to_nat (sampleIndex (length coords) n i))
              ltac:(lia)) as [c Hc].
  exists c. split; [done|].
  unfold sampleRoutePoints.
  replace (length coords =? 0)%nat with false by (symmetry; apply Nat.eqb_neq; lia).
  rewrite list_lookup_fmap, lookup_seq_lt by done. simpl.
  by rewrite (nth_lookup_Some _ _ _ _ Hc).
Qed.

Lemma sample_points_size (coords : list Coord) (n : nat) :
  coords ≠ [] → length (sampleRoutePoints coords n) = n.
Proof.
  intros Hne. unfold sampleRoutePoints. destruct coords; [done|].
  simpl Nat.eqb. cbv iota. by rewrite length_map, length_seq.
Qed.

(** X1.  Sampling an empty route gives no points; on a non-empty route
    it gives exactly [n] points, each one a coordinate of the route,
    read at a position inside the route, with latitude and longitude
    swapped out of the [[lng, lat]] order. *)
Theorem sample_points_on_route (coords : list Coord) (n : nat) :
  (coords = [] → sampleRoutePoints coords n = [])
  ∧ (coords ≠ [] →
     length (sampleRoutePoints coords n) = n
     ∧ ∀ i, (i < n)%nat →
         ∃ k c, (k < length coords)%nat ∧ coords !! k = Some c
                ∧ sampleRoutePoints coords n !! i
                  = Some (mkSample (latOf c) (lngOf c))).
Proof.
  split; [by intros ->|]. intros Hne. split.
  - by apply sample_points_size.
  - intros i Hi. destruct (sample_lookup coords n i Hne Hi) as (c & Hc & Hs).
    exists (Z.to_nat (sampleIndex (length coords) n i)), c.
    split; [by apply lookup_lt_Some in Hc|done].
Qed.

(** X2.  With at least one sample the first sample is the first point
    of the route; with at least two the last sample is its last point;
    a single sample is the first point alone. *)
Theorem sample_endpoints (coords : list Coord) (n : nat) (a b : Coord) :
  coords !! 0%nat = Some a →
  last coords = Some b →
  ((1 ≤ n)%nat →
     sampleRoutePoints coords n !! 0%nat = Some (mkSample (latOf a) (lngOf a)))
  ∧ ((2 ≤ n)%nat →
     sampleRoutePoints coords n !! (n - 1)%nat
     = Some (mkSample (latOf b) (lngOf b)))
  ∧ (n = 1%nat → sampleRoutePoints coords n = [mkSample (latOf a) (lngOf a)]).
Proof.
  intros Ha Hb.
  assert (Hne : coords ≠ []) by (by intros ->).
  assert (Hlen : (1 ≤ length coords)%nat) by (destruct coords; [done|simpl; lia]).
  assert (Hfirst : (1 ≤ n)%nat →
    sampleRoutePoints coords n !! 0%nat = Some (mkSample (latOf a) (lngOf a))).
  { intros Hn. destruct (sample_lookup coords n 0 Hne ltac:(lia)) as (c & Hc & Hs).
    rewrite sampleIndex_first in Hc by done.
    change (Z.to_nat 0) with 0%nat in Hc. congruence. }
  split; [done|]. split.
  - intros Hn.
    destruct (sample_lookup coords n (n - 1) Hne ltac:(lia)) as (c & Hc & Hs).
    rewrite sampleIndex_last in Hc by done.
    rewrite last_lookup in Hb.
    replace (Z.to_nat (Z.of_nat (length coords) - 1)) with (pred (length coords))
      in Hc by lia.
    congruence.
  - intros ->. specialize (Hfirst ltac:(lia)).
    pose proof (sample_points_size coords 1 Hne) as Hsz.
    destruct (sampleRoutePoints coords 1) as [|s [|]]; simpl in *; try lia.
    congruence.
Qed.

(** X3.  The samples follow the route: of two samples the later one is
    read at the same or a later position of the route. *)
Theorem sample_order (coords : list Coord) (n i j : nat) :
  coords ≠ [] → (i ≤ j)%nat → (j < n)%nat →
  ∃ ki kj ci cj,
    (ki ≤ kj)%nat
    ∧ coords !! ki = Some ci ∧ coords !! kj = Some cj
    ∧ sampleRoutePoints coords n !! i = Some (mkSample (latOf ci) (lngOf ci))
    ∧ sampleRoutePoints coords n !! j = Some (mkSample (latOf cj) (lngOf cj)).
Proof.
  intros Hne Hij Hj.
  assert (Hlen : (1 ≤ length coords)%nat) by (destruct coords; [done|simpl; lia]).
  destruct (sample_lookup coords n i Hne ltac:(lia)) as (ci & Hci & Hsi).
  destruct (sample_lookup coords n j Hne Hj) as (cj & Hcj & Hsj).
  exists (Z.to_nat (sampleIndex (length coords) n i)),
         (Z.to_nat (sampleIndex (length coords) n j)), ci, cj.
  pose proof (sampleIndex_mono (length coords) n i j Hlen Hij).
  pose proof (sampleIndex_range (length coords) n i Hlen).
  repeat split; try done. lia.
Qed.


Lemma sample_endpoints_witness :
  sampleRoutePoints threePoints 10 !! 9%nat = Some (mkSample 6 5).
Proof.
  apply (sample_endpoints threePoints 10 (1, 2) (5, 6) eq_refl eq_refl). lia.
Defined.

Lemma sample_order_witness :
  ∃ ki kj ci cj,
    (ki ≤ kj)%nat
    ∧ threePoints !! ki = Some ci ∧ threePoints !! kj = Some cj
    ∧ sampleRoutePoints threePoints 10 !! 2%nat = Some (mkSample (latOf ci) (lngOf ci))
    ∧ sampleRoutePoints threePoints 10 !! 7%nat = Some (mkSample (latOf cj) (lngOf cj)).
Proof.
  apply (sample_order threePoints 10 2 7); [done|lia|lia].
Defined.
End SamplingProperties.

Section NearestProperties.
Import Scorer.
Variables midLat midLng : R.
Local Abbreviation sqDist := (Reference.sqDist midLat midLng).
Local Abbreviation leads := (Reference.leads midLat midLng).



Lemma nearestLoop_leads (pts : list SamplePoint) :
  ∀ seen best bestD,
    leads seen best bestD →
    seen ++ pts ≠ [] →
    ∃ b, leads (seen ++ pts)
           (nearestLoop midLat midLng pts (length seen) best bestD) (Some b).
Proof.
  induction pts as [|p pts IH]; intros seen best bestD Hinv Hne.
  - rewrite app_nil_r in *. simpl. destruct bestD as [b|]; [eauto|done].
  - cbn [nearestLoop]. fold (sqDist p).
    replace (seen ++ p :: pts) with ((seen ++ [p]) ++ pts) by by rewrite <- app_assoc.
    replace (S (length seen)) with (length (seen ++ [p]))
      by (rewrite length_app; simpl; lia).
    assert (Hne' : (seen ++ [p]) ++ pts ≠ []) by (by destruct seen).
    destruct bestD as [b|].
    + destruct Hinv as (p0 & Hp0 & Hd0 & Hmin & Hfirst).
      assert (Hbest : (best < length seen)%nat) by by apply lookup_lt_Some in Hp0.
      destruct (Rlt_dec (sqDist p) b) as [Hlt|Hge].
      * apply IH; [|done]. exists p. split; [|split; [done|split]].
        -- by rewrite lookup_app_r, Nat.sub_diag.
        -- intros q Hq. apply elem_of_app in Hq as [Hq|Hq].
           ++ specialize (Hmin q Hq). lra.
           ++ apply list_elem_of_singleton in Hq as ->. lra.
        -- intros j q Hj Hq. rewrite lookup_app_l in Hq by done.
           assert (q ∈ seen) by (apply list_elem_of_lookup; eauto).
           specialize (Hmin q H). lra.
      * apply IH; [|done]. exists p0. split; [|split; [done|split]].
        -- by rewrite lookup_app_l.
        -- intros q Hq. apply elem_of_app in Hq as [Hq|Hq]; [by apply Hmin|].
           apply list_elem_of_singleton in Hq as ->. lra.
        -- intros j q Hj Hq. rewrite lookup_app_l in Hq by lia. by eapply Hfirst.
    + simpl in Hinv. subst seen. apply IH; [|done]. exists p.
      split; [done|]. split; [done|]. split.
      * intros q Hq. apply list_elem_of_singleton in Hq as ->. lra.
      * intros j q Hj. simpl in Hj. lia.
Qed.

(** X4.  For a non-empty list of sample points the index returned is
    inside the list, its point is at least as close to the midpoint, by
    squared latitude/longitude distance, as every other sample, and
    every sample before it is strictly farther: among equally close
    samples the first wins.  For an empty list the index is 0. *)
Theorem nearest_sample_minimal (pts : list SamplePoint) :
  let r := nearestSampleIndex midLat midLng pts in
  (pts = [] → r = 0%nat)
  ∧ (pts ≠ [] →
     ∃ p, pts !! r = Some p
          ∧ (∀ q, q ∈ pts → sqDist p <= sqDist q)
          ∧ (∀ j q, (j < r)%nat → pts !! j = Some q → sqDist p < sqDist q)).
Proof.
  intros r. split; [by intros ->|]. intros Hne.
  destruct (nearestLoop_leads pts [] 0 None eq_refl Hne) as (b & p & Hp & Hd & Hmin & Hfirst).
  exists p. rewrite Hd. done.
Qed.
End NearestProperties.

(** ** Bearings, angles and distances *)

Section GeometryExtras.
Import WindData Scorer.

Lemma atan2_range (y x : R) : - PI < JS.atan2 y x <= PI.
Proof.
  pose proof PI_RGT_0 as Hpi. unfold JS.atan2.
  pose proof (atan_bound (y / x)) as [Hlo Hhi].
  destruct (Rlt_dec 0 x) as [Hx|Hx]; [lra|].
  destruct (Rlt_dec x 0) as [Hx'|Hx'].
  - assert (Hinv : / x < 0) by by apply Rinv_lt_0_compat.
    destruct (Rle_dec 0 y) as [Hy|Hy].
    + assert (Hq : y / x <= 0) by (unfold Rdiv; nra).
      assert (atan (y / x) <= 0).
      { destruct Hq as [Hq|Hq]; [left; rewrite <- atan_0; by apply atan_increasing|].
        rewrite Hq, atan_0. lra. }
      lra.
    + assert (Hq : 0 < y / x) by (unfold Rdiv; nra).
      assert (0 < atan (y / x)) by (rewrite <- atan_0; by apply atan_increasing).
      lra.
  - destruct (Rlt_dec 0 y); [lra|]. destruct (Rlt_dec y 0); lra.
Qed.

(** X5.  A bearing is a number of degrees in [0, 360). *)
Theorem bearing_range (lat1 lng1 lat2 lng2 : R) :
  0 <= computeBearing lat1 lng1 lat2 lng2 < 360.
Proof.
  unfold computeBearing. cbv zeta.
  match goal with |- context [JS.atan2 ?y ?x] =>
    pose proof (atan2_range y x) as [Hlo Hhi]; set (t := JS.atan2 y x) in * end.
  pose proof PI_RGT_0 as Hpi.
  apply rem_range; [|lra].
  assert (- 180 <= t * (180 / PI)).
  { replace (-180) with (- PI * (180 / PI)) by (field; lra).
    apply Rmult_le_compat_r; [|lra].
    apply Rmult_le_pos; [lra|]. left. by apply Rinv_0_lt_compat. }
  lra.
Qed.

Lemma atan2_pos_0 (y : R) : 0 < y → JS.atan2 y 0 = PI / 2.
Proof.
  intros Hy. unfold JS.atan2.
  destruct (Rlt_dec 0 0); [lra|]. destruct (Rlt_dec 0 0); [lra|].
  destruct (Rlt_dec 0 y); [done|lra].
Qed.

Lemma atan2_neg_0 (y : R) : y < 0 → JS.atan2 y 0 = - (PI / 2).
Proof.
  intros Hy. unfold JS.atan2.
  destruct (Rlt_dec 0 0); [lra|]. destruct (Rlt_dec 0 0); [lra|].
  destruct (Rlt_dec 0 y); [lra|]. destruct (Rlt_dec y 0); [done|lra].
Qed.

Lemma equator_xy (lng1 lng2 : R) :
  let dLng := toRad (lng2 - lng1) in
  sin dLng * cos (toRad 0) = sin dLng
  ∧ cos (toRad 0) * sin (toRad 0) - sin (toRad 0) * cos (toRad 0) * cos dLng = 0.
Proof.
  cbv zeta. unfold toRad. replace (0 * PI / 180) with 0 by lra.
  rewrite cos_0, sin_0. lra.
Qed.

(** X6.  Due north along a meridian the bearing is 0 and due south
    180; due east along the equator it is 90 and due west 270. *)
Theorem bearing_cardinal (a b c : R) :
  0 < b - a < 180 →
  computeBearing a c b c = 0
  ∧ computeBearing b c a c = 180
  ∧ computeBearing 0 a 0 b = 90
  ∧ computeBearing 0 b 0 a = 270.
Proof.
  intros H. pose proof PI_RGT_0 as Hpi.
  split; [apply bearing_north; lra|]. split; [apply bearing_south; lra|].
  split.
  - unfold computeBearing. cbv zeta.
    destruct (equator_xy a b) as [-> ->].
    rewrite atan2_pos_0 by (apply sin_gt_0; unfold toRad; nra).
    replace (PI / 2 * (180 / PI) + 360) with 450 by (field; lra).
    rewrite (rem_eval _ _ 1); lra.
  - unfold computeBearing. cbv zeta.
    destruct (equator_xy b a) as [-> ->].
    rewrite atan2_neg_0 by (apply sin_lt_0_var; unfold toRad; nra).
    replace (- (PI / 2) * (180 / PI) + 360) with 270 by (field; lra).
    rewrite (rem_eval _ _ 0); lra.
Qed.

Lemma bearing_cardinal_witness :
  computeBearing 0 2 0 3 = 90 ∧ computeBearing 0 3 0 2 = 270.
Proof.
  destruct (bearing_cardinal 2 3 0) as (_ & _ & He & Hw); [lra|]. by split.
Defined.

(** X7.  The angle between two bearings does not depend on their
    order, lies in [0, 180], is the plain difference when that is at
    most a half turn and the rest of the full turn when it is more. *)
Theorem smallest_angle_props (a b : R) :
  smallestAngle a b = smallestAngle b a
  ∧ 0 <= smallestAngle a b <= 180
  ∧ (0 <= a - b <= 180 → smallestAngle a b = a - b)
  ∧ (180 < a - b < 360 → smallestAngle a b = 360 - (a - b)).
Proof.
  split; [unfold smallestAngle; by rewrite (Rabs_minus_sym a b)|].
  split; [apply smallestAngle_range|].
  split.
  - intros H. unfold smallestAngle. rewrite Rabs_pos_eq by lra.
    destruct (Req_dec (a - b) 0) as [E|E].
    + rewrite E, (rem_eval 0 360 0) by lra. destruct (Rlt_dec 180 _); lra.
    + rewrite (rem_eval _ 360 0) by lra. destruct (Rlt_dec 180 _); lra.
  - intros H. unfold smallestAngle. rewrite Rabs_pos_eq by lra.
    rewrite (rem_eval _ 360 0) by lra. destruct (Rlt_dec 180 _); lra.
Qed.

(** X8.  For a non-negative wind speed the headwind component lies
    between minus the speed and the speed, is the same when bearing and
    wind direction are exchanged, and for a wind from straight behind
    (angle 180) is minus the speed, which [headwindRaw] floors to
    zero. *)
Theorem headwind_component_bounds (bearing windFrom s : R) :
  0 <= s →
  - s <= headwindComponent bearing windFrom s <= s
  ∧ headwindComponent bearing windFrom s = headwindComponent windFrom bearing s
  ∧ (smallestAngle bearing windFrom = 180 →
     headwindComponent bearing windFrom s = - s
     ∧ ∀ t, headwindRawOf (Some (mkEntry t s windFrom)) bearing = 0).
Proof.
  intros Hs. unfold headwindComponent. cbv zeta.
  split.
  { pose proof (COS_bound (smallestAngle bearing windFrom * PI / 180)). nra. }
  split.
  { unfold smallestAngle. by rewrite (Rabs_minus_sym bearing windFrom). }
  intros H180.
  assert (Hhw : s * cos (smallestAngle bearing windFrom * PI / 180) = - s).
  { rewrite H180. replace (180 * PI / 180) with PI by lra. rewrite cos_PI. lra. }
  split; [done|]. intros t. unfold headwindRawOf, headwindComponent. simpl.
  rewrite Hhw. apply Rmax_left. lra.
Qed.
Lemma headwind_component_bounds_witness :
  - 20 <= headwindComponent 45 225 20 <= 20.
Proof. apply (headwind_component_bounds 45 225 20). lra. Defined.
End GeometryExtras.

Section DistanceExtras.
Import WindData Scorer.

Lemma haversine_sym (lat1 lng1 lat2 lng2 : R) :
  haversineMeters lat1 lng1 lat2 lng2 = haversineMeters lat2 lng2 lat1 lng1.
Proof.
  unfold haversineMeters. cbv zeta.
  assert (Hflip : ∀ u v, sin (toRad (u - v) / 2) ^ 2 = sin (toRad (v - u) / 2) ^ 2).
  { intros u v. replace (toRad (u - v) / 2) with (- (toRad (v - u) / 2))
      by (unfold toRad; lra).
    rewrite sin_neg. lra. }
  rewrite (Hflip lat2 lat1), (Hflip lng2 lng1).
  by rewrite (Rmult_comm (cos (toRad lat1)) (cos (toRad lat2))).
Qed.

Lemma half_angle_sq (x : R) : sin (x / 2) ^ 2 = (1 - cos x) / 2.
Proof.
  pose proof (cos_2a_sin (x / 2)) as H.
  replace (2 * (x / 2)) with x in H by lra. lra.
Qed.

Lemma haversine_a_range (lat1 lng1 lat2 lng2 : R) :
  -90 <= lat1 <= 90 → -90 <= lat2 <= 90 →
  let a := sin (toRad (lat2 - lat1) / 2) ^ 2 +
           cos (toRad lat1) * cos (toRad lat2) * sin (toRad (lng2 - lng1) / 2) ^ 2 in
  0 <= a <= 1.
Proof.
  intros H1 H2. cbv zeta. pose proof PI_RGT_0 as Hpi.
  assert (Hc1 : 0 <= cos (toRad lat1)) by (apply cos_ge_0; unfold toRad; nra).
  assert (Hc2 : 0 <= cos (toRad lat2)) by (apply cos_ge_0; unfold toRad; nra).
  set (sl := sin (toRad (lng2 - lng1) / 2) ^ 2).
  assert (Hsl : 0 <= sl <= 1).
  { unfold sl. pose proof (SIN_bound (toRad (lng2 - lng1) / 2)). nra. }
  rewrite half_angle_sq.
  replace (toRad (lat2 - lat1)) with (toRad lat2 - toRad lat1) by (unfold toRad; lra).
  rewrite cos_minus.
  pose proof (cos_plus (toRad lat2) (toRad lat1)) as Hplus.
  pose proof (COS_bound (toRad lat2 + toRad lat1)) as Hb.
  pose proof (COS_bound (toRad lat2 - toRad lat1)) as Hb'.
  rewrite cos_minus in Hb'.
  set (c1 := cos (toRad lat1)) in *. set (c2 := cos (toRad lat2)) in *.
  set (s1 := sin (toRad lat1)) in *. set (s2 := sin (toRad lat2)) in *.
  assert (0 <= c1 * c2) by nra.
  assert (0 <= c1 * c2 * sl <= c1 * c2) by nra.
  split; lra.
Qed.

Lemma atan2_quadrant (y x : R) : 0 <= y → 0 <= x → 0 <= JS.atan2 y x <= PI / 2.
Proof.
  intros Hy Hx. pose proof PI_RGT_0 as Hpi. unfold JS.atan2.
  destruct (Rlt_dec 0 x) as [Hpos|Hpos].
  - pose proof (atan_bound (y / x)) as [_ Hhi].
    assert (Hq : 0 <= y / x).
    { apply Rmult_le_pos; [done|]. left. by apply Rinv_0_lt_compat. }
    assert (0 <= atan (y / x)).
    { destruct Hq as [Hq|Hq]; [left; rewrite <- atan_0; by apply atan_increasing|].
      rewrite <- Hq, atan_0. lra. }
    lra.
  - destruct (Rlt_dec x 0); [lra|].
    destruct (Rlt_dec 0 y); [lra|]. destruct (Rlt_dec y 0); lra.
Qed.


(** X9.  For latitudes within [-90, 90] the haversine distance is the
    same in both directions, is 0 from a point to itself, and lies
    between 0 and half the circumference of the sphere of radius
    6,371,000 m. *)
Theorem haversine_distance_props (lat1 lng1 lat2 lng2 : R) :
  -90 <= lat1 <= 90 → -90 <= lat2 <= 90 →
  haversineMeters lat1 lng1 lat2 lng2 = haversineMeters lat2 lng2 lat1 lng1
  ∧ haversineMeters lat1 lng1 lat1 lng1 = 0
  ∧ 0 <= haversineMeters lat1 lng1 lat2 lng2 <= 6371000 * PI.
Proof.
  intros H1 H2. split; [apply haversine_sym|]. split.
  - unfold haversineMeters. cbv zeta.
    replace (lat1 - lat1) with 0 by lra. replace (lng1 - lng1) with 0 by lra.
    replace (toRad 0 / 2) with 0 by (unfold toRad; lra).
    rewrite sin_0.
    replace (0 ^ 2 + cos (toRad lat1) * cos (toRad lat1) * 0 ^ 2) with 0 by lra.
    rewrite sqrt_0, Rminus_0_r, sqrt_1.
    unfold JS.atan2. destruct (Rlt_dec 0 1); [|lra].
    unfold Rdiv. rewrite Rmult_0_l, atan_0. lra.
  - unfold haversineMeters. cbv zeta.
    pose proof (haversine_a_range lat1 lng1 lat2 lng2 H1 H2) as Ha.
    cbv zeta in Ha.
    match goal with |- context [JS.atan2 (sqrt ?a) (sqrt ?b)] =>
      pose proof (atan2_quadrant (sqrt a) (sqrt b) (sqrt_pos a) (sqrt_pos b)) end.
    lra.
Qed.

Lemma haversine_distance_props_witness :
  0 <= haversineMeters 43.65 (-79.4) 43.66 (-79.39) <= 6371000 * PI.
Proof.
  apply (haversine_distance_props 43.65 (-79.4) 43.66 (-79.39)); lra.
Defined.

(** X10.  Between two points of one meridian less than a half turn
    apart the haversine distance is the arc length, the radius times
    the latitude difference in radians, whichever point comes first. *)
Theorem haversine_along_meridian (lat1 lat2 lng : R) :
  Rabs (lat2 - lat1) < 180 →
  haversineMeters lat1 lng lat2 lng = 6371000 * (Rabs (lat2 - lat1) * PI / 180).
Proof.
  intros H. destruct (Rle_dec lat1 lat2) as [Hle|Hgt].
  - rewrite Rabs_pos_eq in * by lra. apply haversine_meridian. lra.
  - rewrite Rabs_left in * by lra. rewrite haversine_sym.
    rewrite haversine_meridian by lra. unfold toRad. lra.
Qed.

Lemma haversine_along_meridian_witness :
  haversineMeters 1 7 0 7 = 6371000 * (Rabs (0 - 1) * PI / 180).
Proof.
  apply haversine_along_meridian. rewrite Rabs_left; lra.
Defined.

(** X11.  An offset moves the point, in the flat-earth metres the
    function works in, by [d * cos bearing] to the east and
    [- d * sin bearing] to the north: a step of length [|d|] at right
    angles to the direction of travel, to its right for positive [d]. *)
Theorem offset_is_perpendicular (lat0 lon0 bearing d : R) :
  cos (lat0 * PI / 180) ≠ 0 →
  let p := offsetPoint lat0 lon0 bearing d in
  let east := (lngOf p - lon0) * (111111 * cos (lat0 * PI / 180)) in
  let north := (latOf p - lat0) * 111111 in
  east = d * cos (toRad bearing)
  ∧ north = - d * sin (toRad bearing)
  ∧ east ^ 2 + north ^ 2 = d ^ 2
  ∧ east * sin (toRad bearing) + north * cos (toRad bearing) = 0.
Proof.
  intros Hcos p east north.
  assert (Hperp : (bearing + 90) * PI / 180 = PI / 2 + toRad bearing)
    by (unfold toRad; lra).
  assert (He : east = d * cos (toRad bearing)).
  { unfold east, p, offsetPoint, lngOf. cbn [fst]. rewrite Hperp.
    rewrite <- cos_sin. field. done. }
  assert (Hn : north = - d * sin (toRad bearing)).
  { unfold north, p, offsetPoint, latOf. cbn [snd]. rewrite Hperp.
    pose proof (sin_cos (toRad bearing)) as Hsc.
    replace (cos (PI / 2 + toRad bearing)) with (- sin (toRad bearing)) by lra.
    field. }
  split; [done|]. split; [done|]. rewrite He, Hn.
  pose proof (sin2_cos2 (toRad bearing)) as Hsq. unfold Rsqr in Hsq.
  split; [|lra]. nra.
Qed.

Lemma offset_is_perpendicular_witness :
  let p := offsetPoint 0 3 30 5 in
  ((lngOf p - 3) * (111111 * cos (0 * PI / 180))) ^ 2
    + ((latOf p - 0) * 111111) ^ 2 = 5 ^ 2.
Proof.
  apply (offset_is_perpendicular 0 3 30 5).
  replace (0 * PI / 180) with 0 by lra. rewrite cos_0. lra.
Defined.

(** X12.  Turning the bearing by a half turn and negating the distance
    gives the same offset point: the reverse traversal of an edge with
    the opposite sign is displaced to the side of the forward one. *)
Theorem offset_reverse_same_side (lat0 lon0 bearing d : R) :
  offsetPoint lat0 lon0 (bearing + 180) (- d) = offsetPoint lat0 lon0 bearing d.
Proof.
  unfold offsetPoint. cbv zeta.
  replace ((bearing + 180 + 90) * PI / 180) with ((bearing + 90) * PI / 180 + PI)
    by lra.
  rewrite neg_cos, neg_sin. f_equal; f_equal; unfold Rdiv; lra.
Qed.
End DistanceExtras.

(** ** The segment collection *)

Section CollectionExtras.
Import WindData Scorer Reference.

(** X13.  A route of [n >= 1] coordinates gives [n - 1] segments, one
    per consecutive pair, and the empty route none. *)
Theorem segment_count cs sp ad h el inc :
  length (features (buildSegmentCollection cs sp ad h el inc))
  = (length cs - 1)%nat.
Proof.
  unfold buildSegmentCollection. destruct (length cs <? 2)%nat eqn:E.
  - apply Nat.ltb_lt in E. simpl. lia.
  - cbn [features]. by rewrite length_map, mainPass_length.
Qed.

Lemma climbOf_range el he i lat1 lng1 lat2 lng2 :
  let cl := climbOf el he i lat1 lng1 lat2 lng2 in
  -0.2 <= fst cl <= 0.2 ∧ 0 <= snd cl <= 16.
Proof.
  cbv zeta. unfold climbOf, GRADE_CLAMP, CLIMB_K.
  destruct he; [|cbn [fst snd]; lra].
  destruct (Rlt_dec 0.1 _); [|cbn [fst snd]; lra].
  match goal with |- context [Rmin 0.2 ?r] =>
    destruct (clamp_cases r) as (Hb & _); cbv zeta in Hb;
    replace (-0.2) with (- (0.2)) in * by lra;
    set (g := Rmax (- (0.2)) (Rmin 0.2 r)) in * end.
  destruct (Rlt_dec 0 g); cbn [fst snd]; lra.
Qed.

Lemma feature_of_segment cs sp ad h el inc f :
  f ∈ features (buildSegmentCollection cs sp ad h el inc) →
  ∃ m i c1 c2 ev,
    f = featureOf m
          (fst (segmentAt sp ad h el (inc && (length el =? length cs)%nat)
                  (countEdges cs ∅) i c1 c2 ev)).
Proof.
  intros Hf. apply list_elem_of_lookup in Hf as [j Hj].
  destruct (features_lookup _ _ _ _ _ _ _ _ Hj) as (segs & seg & -> & Hseg & ->).
  destruct (mainPass_lookup _ _ _ _ _ _ _ _ _ _ _ Hseg) as (c1 & c2 & ev & _ & _ & ->).
  eauto 10.
Qed.

(** X14.  Whatever the inputs, every segment has a non-negative
    headwind, a grade within [-0.2, 0.2], a climb penalty between 0 and
    16, a suffer score that is the sum of headwind and climb penalty,
    and the same value under [score] and [totalScore]. *)
Theorem segment_stats_ranges cs sp ad h el inc f :
  f ∈ features (buildSegmentCollection cs sp ad h el inc) →
  let p := properties f in
  0 <= p_headwindRaw p
  ∧ -0.2 <= p_grade p <= 0.2
  ∧ 0 <= p_climbPenalty p <= 16
  ∧ p_sufferRaw p = p_headwindRaw p + p_climbPenalty p
  ∧ p_totalScore p = score p.
Proof.
  intros Hf. destruct (feature_of_segment _ _ _ _ _ _ _ Hf)
    as (m & i & c1 & c2 & ev & ->).
  cbn [featureOf properties p_headwindRaw p_grade p_climbPenalty p_sufferRaw
       p_totalScore score].
  match goal with |- context [segmentAt ?a ?b ?c ?d ?e ?g ?i ?c1 ?c2 ?ev] =>
    destruct (segmentAt_stats a b c d e g i c1 c2 ev) as (Hhw & Hg & Hcp & Hsr);
    pose proof (climbOf_range d e i (latOf c1) (lngOf c1) (latOf c2) (lngOf c2))
      as [Hgr Hcr] end.
  rewrite Hsr, Hg, Hcp, Hhw. unfold headwindRawOf.
  match goal with |- context [Rmax 0 ?x] => pose proof (Rmax_l 0 x) end.
  repeat split; try done; lra.
Qed.

(** X15.  With elevation switched off, or with an elevation array
    whose length differs from the route's, every segment has grade 0
    and climb penalty 0, and its suffer score is its headwind. *)
Theorem wind_only_without_elevation cs sp ad h el inc f :
  inc = false ∨ length el ≠ length cs →
  f ∈ features (buildSegmentCollection cs sp ad h el inc) →
  let p := properties f in
  p_grade p = 0 ∧ p_climbPenalty p = 0 ∧ p_sufferRaw p = p_headwindRaw p.
Proof.
  intros Hoff Hf. destruct (feature_of_segment _ _ _ _ _ _ _ Hf)
    as (m & i & c1 & c2 & ev & ->).
  assert (Hhe : inc && (length el =? length cs)%nat = false).
  { destruct Hoff as [->|Hne]; [done|].
    apply Nat.eqb_neq in Hne. rewrite Hne. by destruct inc. }
  rewrite Hhe.
  cbn [featureOf properties p_headwindRaw p_grade p_climbPenalty p_sufferRaw].
  match goal with |- context [segmentAt ?a ?b ?c ?d ?e ?g ?i ?c1 ?c2 ?ev] =>
    destruct (segmentAt_stats a b c d e g i c1 c2 ev) as (Hhw & Hg & Hcp & Hsr) end.
  rewrite Hsr, Hg, Hcp. unfold climbOf. cbn [fst snd]. repeat split; lra.
Qed.

(** X16.  When no sample has a wind entry at the chosen hour (no data
    yet, a failed fetch, or an hour past the end of every series),
    every segment has headwind 0; if elevation is off as well, every
    suffer score and every normalized score is 0. *)
Theorem no_wind_no_headwind cs sp ad h el inc f :
  (∀ idx, windEntry ad idx h = None) →
  f ∈ features (buildSegmentCollection cs sp ad h el inc) →
  let p := properties f in
  p_headwindRaw p = 0
  ∧ (inc = false → p_sufferRaw p = 0 ∧ score p = 0).
Proof.
  intros Hnone Hf. destruct (feature_of_segment _ _ _ _ _ _ _ Hf)
    as (m & i & c1 & c2 & ev & ->).
  cbn [featureOf properties p_headwindRaw p_sufferRaw score].
  match goal with |- context [segmentAt ?a ?b ?c ?d ?e ?g ?i ?c1 ?c2 ?ev] =>
    destruct (segmentAt_stats a b c d e g i c1 c2 ev) as (Hhw & Hg & Hcp & Hsr) end.
  assert (H0 : headwindRaw
    (fst (segmentAt sp ad h el (inc && (length el =? length cs)%nat)
            (countEdges cs ∅) i c1 c2 ev)) = 0).
  { rewrite Hhw, Hnone. unfold headwindRawOf. apply Rmax_left. lra. }
  split; [done|]. intros ->. simpl andb in *.
  rewrite Hsr, Hcp, H0. unfold climbOf. cbn [fst snd]. split; [lra|].
  unfold Rdiv. rewrite Rplus_0_l, Rmult_0_l. done.
Qed.
Lemma meridian_feature sp ad h el inc :
  ∃ f, features (buildSegmentCollection meridianDegree sp ad h el inc) = [f].
Proof. unfold meridianDegree. rewrite features_pair. eauto. Qed.

Lemma segment_stats_ranges_witness :
  ∃ f, features (buildSegmentCollection meridianDegree [] [] 0 [0; 100] true) = [f]
       ∧ 0 <= p_climbPenalty (properties f) <= 16.
Proof.
  destruct (meridian_feature [] [] 0 [0; 100] true) as [f Hf].
  exists f. split; [done|].
  apply (segment_stats_ranges meridianDegree [] [] 0 [0; 100] true f).
  rewrite Hf. by apply list_elem_of_singleton.
Defined.

Lemma wind_only_without_elevation_witness :
  ∃ f, features (buildSegmentCollection meridianDegree [] [] 0 [100] true) = [f]
       ∧ p_grade (properties f) = 0.
Proof.
  destruct (meridian_feature [] [] 0 [100] true) as [f Hf].
  exists f. split; [done|].
  apply (wind_only_without_elevation meridianDegree [] [] 0 [100] true f).
  - right. simpl. lia.
  - rewrite Hf. by apply list_elem_of_singleton.
Defined.

Lemma no_wind_no_headwind_witness :
  ∃ f, features (buildSegmentCollection meridianDegree [mkSample 0 0] [] 0 [] false) = [f]
       ∧ p_headwindRaw (properties f) = 0.
Proof.
  destruct (meridian_feature [mkSample 0 0] [] 0 [] false) as [f Hf].
  exists f. split; [done|].
  apply (no_wind_no_headwind meridianDegree [mkSample 0 0] [] 0 [] false f).
  - intros idx. unfold windEntry. by rewrite lookup_nil.
  - rewrite Hf. by apply list_elem_of_singleton.
Defined.
End CollectionExtras.


Section GeometryOfSegments.
Import WindData Scorer Reference.

Lemma occurrences_cons k x keys :
  occurrences k (x :: keys)
  = ((if decide (x = k) then 1 else 0) + occurrences k keys)%nat.
Proof. unfold occurrences. rewrite filter_cons. by destruct (decide (x = k)). Qed.

Lemma occurrences_app k l1 l2 :
  occurrences k (l1 ++ l2) = (occurrences k l1 + occurrences k l2)%nat.
Proof. unfold occurrences. by rewrite filter_app, length_app. Qed.

Lemma edgeKeys_step c1 c2 rest :
  edgeKeys (c1 :: c2 :: rest) = getEdgeKey c1 c2 :: edgeKeys (c2 :: rest).
Proof. reflexivity. Qed.

Lemma countEdges_step c1 c2 rest m :
  countEdges (c1 :: c2 :: rest) m
  = countEdges (c2 :: rest)
      (<[getEdgeKey c1 c2 := (JS.orElse (m !! getEdgeKey c1 c2) 0 + 1)%nat]> m).
Proof. reflexivity. Qed.

Lemma orElse_succ (n d : nat) : JS.orElse (Some (n + 1)%nat) d = (n + 1)%nat.
Proof. by rewrite Nat.add_1_r. Qed.

Lemma countEdges_lookup (cs : list Coord) :
  ∀ (m : gmap string nat) (k : string),
    countEdges cs m !! k
    = if (occurrences k (edgeKeys cs) =? 0)%nat then m !! k
      else Some (JS.orElse (m !! k) 0 + occurrences k (edgeKeys cs))%nat.
Proof.
  induction cs as [|c1 rest IH]; intros m k; [done|].
  destruct rest as [|c2 rest']; [done|].
  rewrite countEdges_step, edgeKeys_step, IH, occurrences_cons.
  set (k0 := getEdgeKey c1 c2). set (n := occurrences k (edgeKeys (c2 :: rest'))).
  destruct (decide (k0 = k)) as [->|Hne].
  - rewrite lookup_insert_eq, orElse_succ.
    replace (1 + n =? 0)%nat with false by (symmetry; apply Nat.eqb_neq; lia).
    destruct (n =? 0)%nat eqn:E.
    + apply Nat.eqb_eq in E. rewrite E. f_equal; lia.
    + f_equal; lia.
  - by rewrite lookup_insert_ne.
Qed.

Lemma edgeKeys_lookup (cs : list Coord) :
  ∀ j c1 c2, cs !! j = Some c1 → cs !! S j = Some c2 →
             edgeKeys cs !! j = Some (getEdgeKey c1 c2).
Proof.
  induction cs as [|a rest IH]; intros j c1 c2 H1 H2; [done|].
  destruct rest as [|b rest']; [done|].
  rewrite edgeKeys_step. destruct j as [|j].
  - simpl in *. congruence.
  - simpl. by apply IH.
Qed.

Section Visits.
Variables (sp : list SamplePoint)
  (ad : list (option (list HourlyWindEntry))) (h : nat)
  (el : list R) (he : bool) (ec : gmap string nat).
Local Abbreviation visitsMatch := (Reference.visitsMatch ec).


Lemma visitsMatch_step ev passed i c1 c2 :
  visitsMatch ev passed →
  visitsMatch (snd (segmentAt sp ad h el he ec i c1 c2 ev))
    (passed ++ [getEdgeKey c1 c2]).
Proof.
  intros Hv k Hk. rewrite occurrences_app, occurrences_cons.
  pose proof (segmentAt_geometry sp ad h el he ec i c1 c2 ev) as Hg.
  cbv zeta in Hg. change (occurrences k []) with 0%nat.
  destruct (1 <? JS.orElse (ec !! getEdgeKey c1 c2) 1)%nat eqn:E.
  - destruct Hg as [_ ->]. destruct (decide (getEdgeKey c1 c2 = k)) as [Heq|Hne].
    + rewrite Heq, lookup_insert_eq, orElse_succ, (Hv k Hk). lia.
    + rewrite lookup_insert_ne by done. rewrite (Hv k Hk). lia.
  - destruct Hg as [_ ->]. destruct (decide (getEdgeKey c1 c2 = k)) as [Heq|Hne].
    + rewrite Heq in E. apply Nat.ltb_ge in E. lia.
    + rewrite (Hv k Hk). lia.
Qed.

Lemma mainPass_geometry (cs : list Coord) :
  ∀ passed ev i0 j seg,
    visitsMatch ev passed →
    mainPass sp ad h el he ec i0 cs ev !! j = Some seg →
    ∃ c1 c2,
      cs !! j = Some c1 ∧ cs !! S j = Some c2 ∧
      let k := getEdgeKey c1 c2 in
      let bearing := computeBearing (latOf c1) (lngOf c1) (latOf c2) (lngOf c2) in
      let earlier := occurrences k (passed ++ take j (edgeKeys cs)) in
      let d := (if (earlier =? 0)%nat then 1 else -1) * OFFSET_METERS in
      coords seg =
        if (1 <? JS.orElse (ec !! k) 1)%nat then
          [offsetPoint (latOf c1) (lngOf c1) bearing d;
           offsetPoint (latOf c2) (lngOf c2) bearing d]
        else [c1; c2].
Proof.
  induction cs as [|a rest IH]; intros passed ev i0 j seg Hv Hj; [done|].
  destruct rest as [|b rest']; [done|].
  rewrite mainPass_step in Hj. destruct j as [|j].
  - simpl in Hj. injection Hj as <-. exists a, b. split; [done|]. split; [done|].
    cbv zeta. rewrite take_0, app_nil_r.
    pose proof (segmentAt_geometry sp ad h el he ec i0 a b ev) as Hg.
    cbv zeta in Hg.
    destruct (1 <? JS.orElse (ec !! getEdgeKey a b) 1)%nat eqn:E; [|by destruct Hg].
    destruct Hg as [-> _]. rewrite (Hv _ ltac:(by apply Nat.ltb_lt)). done.
  - simpl in Hj.
    destruct (IH (passed ++ [getEdgeKey a b]) _ _ _ _
                (visitsMatch_step ev passed i0 a b Hv) Hj)
      as (c1 & c2 & H1 & H2 & Hc).
    exists c1, c2. split; [done|]. split; [done|].
    cbv zeta in *. rewrite edgeKeys_step. simpl take.
    by rewrite <- app_assoc in Hc.
Qed.
End Visits.

(** X17.  The geometry of segment [j] is decided by how often its
    undirected edge key occurs on the route, which is at least once: a
    key that occurs once leaves the two endpoints as they are; a key
    that occurs more often moves both endpoints by 5 m across the
    bearing of the segment when no earlier segment has the key, and by
    -5 m for every later traversal.  The key itself does not depend on
    the direction of travel. *)
Theorem segment_geometry cs sp ad h el inc j f :
  features (buildSegmentCollection cs sp ad h el inc) !! j = Some f →
  ∃ c1 c2,
    cs !! j = Some c1 ∧ cs !! S j = Some c2 ∧
    let k := getEdgeKey c1 c2 in
    let n := occurrences k (edgeKeys cs) in
    let earlier := occurrences k (take j (edgeKeys cs)) in
    let bearing := computeBearing (latOf c1) (lngOf c1) (latOf c2) (lngOf c2) in
    let d := if (earlier =? 0)%nat then 5 else -5 in
    getEdgeKey c2 c1 = k
    ∧ (1 ≤ n)%nat
    ∧ (n = 1%nat → geometry f = [c1; c2])
    ∧ ((2 ≤ n)%nat →
       geometry f = [offsetPoint (latOf c1) (lngOf c1) bearing d;
                     offsetPoint (latOf c2) (lngOf c2) bearing d]).
Proof.
  intros Hf.
  destruct (features_lookup _ _ _ _ _ _ _ _ Hf) as (segs & seg & -> & Hseg & ->).
  assert (Hv : Reference.visitsMatch (countEdges cs ∅) ∅ []).
  { intros k _. by rewrite lookup_empty. }
  destruct (mainPass_geometry _ _ _ _ _ _ _ _ _ _ _ _ Hv Hseg)
    as (c1 & c2 & H1 & H2 & Hc).
  exists c1, c2. split; [done|]. split; [done|]. cbv zeta in *.
  split; [apply getEdgeKey_sym|].
  pose proof (edgeKeys_lookup cs j c1 c2 H1 H2) as Hk.
  set (k := getEdgeKey c1 c2) in *.
  assert (Hn : (1 ≤ occurrences k (edgeKeys cs))%nat).
  { rewrite <- (take_drop_middle _ _ _ Hk), occurrences_app, occurrences_cons.
    rewrite decide_True by done. lia. }
  split; [done|].
  rewrite countEdges_lookup, lookup_empty in Hc.
  replace (occurrences k (edgeKeys cs) =? 0)%nat with false in Hc
    by (symmetry; apply Nat.eqb_neq; lia).
  change (JS.orElse None 0) with 0%nat in Hc. rewrite Nat.add_0_l in Hc.
  cbn [featureOf geometry]. simpl app in Hc.
  split.
  - intros E. rewrite E in Hc. done.
  - intros E. rewrite Hc.
    destruct (occurrences k (edgeKeys cs)) as [|[|n]] eqn:En; [lia..|].
    cbn [JS.orElse Nat.ltb Nat.leb].
    destruct (occurrences k (take j (edgeKeys cs)) =? 0)%nat;
      unfold OFFSET_METERS; repeat f_equal; lra.
Qed.
Lemma segment_geometry_witness :
  ∃ f, features (buildSegmentCollection meridianDegree [] [] 0 [] false) !! 0%nat = Some f
       ∧ geometry f = [(0, 0); (0, 1)].
Proof.
  destruct (meridian_feature [] [] 0 [] false) as [f Hf].
  exists f. assert (Hl : features (buildSegmentCollection meridianDegree [] [] 0 [] false)
                         !! 0%nat = Some f) by by rewrite Hf.
  split; [done|].
  destruct (segment_geometry meridianDegree [] [] 0 [] false 0 f Hl)
    as (c1 & c2 & H1 & H2 & _ & _ & Hone & _).
  injection H1 as <-. injection H2 as <-. apply Hone.
  unfold occurrences. simpl edgeKeys. rewrite filter_cons_True by done. done.
Defined.
End GeometryOfSegments.

(** ** The elevation cache *)

Section ElevationProperties.
Import Scorer Elevation Reference.


Lemma sampleElevations_cons q s c rest :
  sampleElevations q s (c :: rest)
  = (fst (sampleOne q s c) :: fst (sampleElevations q (snd (sampleOne q s c)) rest),
     snd (sampleElevations q (snd (sampleOne q s c)) rest)).
Proof.
  change (sampleElevations q s (c :: rest)) with
    (let '(elev, s1) := sampleOne q s c in
     let '(elevs, s2) := sampleElevations q s1 rest in (elev :: elevs, s2)).
  destruct (sampleOne q s c) as [e s1]. cbn [fst snd].
  by destruct (sampleElevations q s1 rest).
Qed.

Lemma sampleOne_cached q s c :
  elevCache (snd (sampleOne q s c)) !! keyOf c = Some (fst (sampleOne q s c)).
Proof.
  unfold sampleOne, keyOf. cbv zeta.
  destruct (elevCache s !! _) as [v|] eqn:E; simpl; [done|].
  apply lookup_insert_eq.
Qed.

Lemma sampleOne_keeps q s c k v :
  elevCache s !! k = Some v → elevCache (snd (sampleOne q s c)) !! k = Some v.
Proof.
  intros Hk. unfold sampleOne. cbv zeta.
  destruct (elevCache s !! elevationKey _ _) as [w|] eqn:E; simpl; [done|].
  rewrite lookup_insert_ne; [done|]. intros <-. congruence.
Qed.

Lemma sampleOne_hit q s c v :
  elevCache s !! keyOf c = Some v → sampleOne q s c = (v, s).
Proof. intros H. unfold sampleOne, keyOf in *. cbv zeta. by rewrite H. Qed.

Lemma sampleElevations_keeps q cs :
  ∀ s k v, elevCache s !! k = Some v →
           elevCache (snd (sampleElevations q s cs)) !! k = Some v.
Proof.
  induction cs as [|c rest IH]; intros s k v Hk; [done|].
  rewrite sampleElevations_cons. cbn [snd]. by apply IH, sampleOne_keeps.
Qed.

Lemma sampleElevations_length q cs :
  ∀ s, length (fst (sampleElevations q s cs)) = length cs.
Proof.
  induction cs as [|c rest IH]; intros s; [done|].
  rewrite sampleElevations_cons. cbn [fst length]. by rewrite IH.
Qed.

Lemma sampleElevations_cached q cs :
  ∀ s i c, cs !! i = Some c →
    ∃ e, fst (sampleElevations q s cs) !! i = Some e
         ∧ elevCache (snd (sampleElevations q s cs)) !! keyOf c = Some e.
Proof.
  induction cs as [|c0 rest IH]; intros s i c Hi; [done|].
  rewrite sampleElevations_cons. cbn [fst snd]. destruct i as [|i].
  - injection Hi as ->. eexists. split; [done|].
    apply sampleElevations_keeps, sampleOne_cached.
  - by apply IH.
Qed.

Lemma sampleElevations_hit q cs :
  ∀ s es,
    Forall2 (λ c e, elevCache s !! keyOf c = Some e) cs es →
    sampleElevations q s cs = (es, s).
Proof.
  induction cs as [|c rest IH]; intros s es Hall.
  - by apply Forall2_nil_inv_l in Hall as ->.
  - apply Forall2_cons_inv_l in Hall as (e & es' & He & Hrest & ->).
    rewrite sampleElevations_cons, (sampleOne_hit _ _ _ _ He). cbn [fst snd].
    by rewrite (IH _ _ Hrest).
Qed.

(** X18.  Sampling returns one elevation per route point; afterwards
    the key of every route point is cached with the elevation returned
    for it, and every entry that was cached before is unchanged. *)
Theorem elevation_sampling q s cs :
  let r := sampleElevations q s cs in
  length (fst r) = length cs
  ∧ (∀ i c, cs !! i = Some c →
       ∃ e, fst r !! i = Some e
            ∧ elevCache (snd r) !! elevationKey (latOf c) (lngOf c) = Some e)
  ∧ (∀ k v, elevCache s !! k = Some v → elevCache (snd r) !! k = Some v).
Proof.
  cbv zeta. split; [apply sampleElevations_length|].
  split; [apply sampleElevations_cached|apply sampleElevations_keeps].
Qed.

Lemma elevation_resample_aux q1 q2 s cs :
  sampleElevations q2 (snd (sampleElevations q1 s cs)) cs
  = (fst (sampleElevations q1 s cs), snd (sampleElevations q1 s cs)).
Proof.
  apply sampleElevations_hit. apply Forall2_same_length_lookup. split.
  - by rewrite sampleElevations_length.
  - intros i c e Hc He.
    destruct (sampleElevations_cached q1 cs s i c Hc) as (e' & He' & Hcache).
    congruence.
Qed.

(** X19.  Sampling again, with points that have the same keys one by
    one, returns the elevations of the first call and makes no terrain
    query, whatever the terrain answers by then. *)
Theorem elevation_resample q1 q2 s cs cs' :
  map (λ c, elevationKey (latOf c) (lngOf c)) cs'
  = map (λ c, elevationKey (latOf c) (lngOf c)) cs →
  let r1 := sampleElevations q1 s cs in
  sampleElevations q2 (snd r1) cs' = (fst r1, snd r1).
Proof.
  intros Hkeys r1. apply sampleElevations_hit.
  apply Forall2_same_length_lookup. split.
  - unfold r1. rewrite sampleElevations_length.
    apply (f_equal length) in Hkeys. by rewrite !length_map in Hkeys.
  - intros i c' e Hc' He.
    assert (Hk : map keyOf cs' !! i = Some (keyOf c')) by by rewrite list_lookup_fmap, Hc'.
    unfold keyOf in Hk at 1. rewrite Hkeys, list_lookup_fmap in Hk.
    destruct (cs !! i) as [c|] eqn:Hc; [|done]. injection Hk as Hk.
    destruct (sampleElevations_cached q1 cs s i c Hc) as (e' & He' & Hcache).
    fold r1 in He', Hcache. unfold keyOf in *. rewrite <- Hk, Hcache. congruence.
Qed.

Lemma sampleOne_unavailable q s c :
  (∀ lng lat, q lng lat = None) →
  (∀ k v, elevCache s !! k = Some v → v = 0) →
  fst (sampleOne q s c) = 0
  ∧ ∀ k v, elevCache (snd (sampleOne q s c)) !! k = Some v → v = 0.
Proof.
  intros Hq Hz. unfold sampleOne. cbv zeta.
  destruct (elevCache s !! elevationKey _ _) as [w|] eqn:E; simpl.
  - split; [by eapply Hz|done].
  - rewrite Hq. simpl. split; [done|]. intros k v.
    rewrite lookup_insert. case_decide; [by intros [= <-]|apply Hz].
Qed.

Lemma sampleElevations_unavailable q cs :
  (∀ lng lat, q lng lat = None) →
  ∀ s, (∀ k v, elevCache s !! k = Some v → v = 0) →
       fst (sampleElevations q s cs) = replicate (length cs) 0.
Proof.
  intros Hq. induction cs as [|c rest IH]; intros s Hz; [done|].
  rewrite sampleElevations_cons. cbn [fst length replicate].
  destruct (sampleOne_unavailable q s c Hq Hz) as [-> Hz'].
  by rewrite (IH _ Hz').
Qed.

Lemma elevation_resample_witness :
  let q1 := λ _ _ : R, Some 120 in
  let q2 := λ _ _ : R, None in
  let r1 := sampleElevations q1 (mkStore ∅ []) meridianDegree in
  sampleElevations q2 (snd r1) meridianDegree = (fst r1, snd r1).
Proof.
  intros q1 q2 r1.
  apply (elevation_resample q1 q2 (mkStore ∅ []) meridianDegree meridianDegree).
  reflexivity.
Defined.

(** X20.  While the terrain answers nothing (its source is not
    loaded), sampling with an empty cache returns 0 for every point,
    and these zeros are what any later sampling of the same points
    returns, also once the terrain answers. *)
Theorem terrain_unavailable_zeros q q2 cs :
  (∀ lng lat, q lng lat = None) →
  let r := sampleElevations q (mkStore ∅ []) cs in
  fst r = replicate (length cs) 0
  ∧ fst (sampleElevations q2 (snd r) cs) = replicate (length cs) 0.
Proof.
  intros Hq r.
  assert (Hr : fst r = replicate (length cs) 0).
  { apply sampleElevations_unavailable; [done|]. intros k v. simpl.
    by rewrite lookup_empty. }
  split; [done|]. unfold r.
  rewrite (elevation_resample_aux q q2 _ cs). by fold r.
Qed.
Lemma terrain_unavailable_zeros_witness :
  fst (sampleElevations (λ _ _, None) (mkStore ∅ []) meridianDegree) = [0; 0].
Proof.
  apply (terrain_unavailable_zeros (λ _ _, None) (λ _ _, Some 7) meridianDegree).
  done.
Defined.

Lemma sampleOne_queries q s c :
  (elevCache s !! keyOf c = None →
     queries (snd (sampleOne q s c)) = queries s ++ [c]
     ∧ ∀ k, k ≠ keyOf c → elevCache (snd (sampleOne q s c)) !! k = elevCache s !! k)
  ∧ (is_Some (elevCache s !! keyOf c) → snd (sampleOne q s c) = s).
Proof.
  unfold sampleOne, keyOf. cbv zeta.
  destruct (elevCache s !! elevationKey _ _) as [w|] eqn:E; simpl.
  - split; [done|]. done.
  - split; [|by intros [? ?]]. intros _. split; [done|].
    intros k Hk. by rewrite lookup_insert_ne.
Qed.

Lemma queries_once q cs :
  ∀ s, ∃ new,
    queries (snd (sampleElevations q s cs)) = queries s ++ new
    ∧ NoDup (map keyOf new)
    ∧ (∀ c, c ∈ new → c ∈ cs ∧ elevCache s !! keyOf c = None)
    ∧ (∀ c, c ∈ cs → elevCache s !! keyOf c = None → keyOf c ∈ map keyOf new).
Proof.
  induction cs as [|c0 rest IH]; intros s.
  - exists []. rewrite app_nil_r. split; [done|]. split; [constructor|].
    split; intros c Hc; by apply elem_of_nil in Hc.
  - rewrite sampleElevations_cons. cbn [snd].
    destruct (sampleOne_queries q s c0) as [Hmiss Hhit].
    destruct (IH (snd (sampleOne q s c0))) as (new & Hq & Hnd & Hin & Hall).
    destruct (elevCache s !! keyOf c0) as [w|] eqn:E.
    + rewrite (Hhit ltac:(eauto)) in *. exists new.
      split; [done|]. split; [done|]. split.
      * intros c Hc. destruct (Hin c Hc). split; [by apply elem_of_cons; right|done].
      * intros c Hc Hnone. apply elem_of_cons in Hc as [->|Hc]; [congruence|].
        by apply Hall.
    + destruct (Hmiss eq_refl) as [Hlog Hother].
      exists (c0 :: new). rewrite Hq, Hlog, <- app_assoc. split; [done|].
      pose proof (sampleOne_cached q s c0) as Hc0.
      split; [|split].
      * simpl. constructor; [|done]. intros Hk.
        apply list_elem_of_fmap in Hk as (c & Hkc & Hc).
        destruct (Hin c Hc) as [_ Hn]. congruence.
      * intros c Hc. apply elem_of_cons in Hc as [->|Hc].
        { split; [by apply elem_of_cons; left|done]. }
        destruct (Hin c Hc) as [Hrest Hn]. split; [by apply elem_of_cons; right|].
        destruct (decide (keyOf c = keyOf c0)) as [Heq|Hne]; [congruence|].
        by rewrite <- (Hother _ Hne).
      * intros c Hc Hnone. simpl.
        destruct (decide (keyOf c = keyOf c0)) as [Heq|Hne].
        { rewrite Heq. apply elem_of_cons. by left. }
        apply elem_of_cons. right.
        apply elem_of_cons in Hc as [->|Hc]; [done|].
        apply Hall; [done|]. by rewrite (Hother _ Hne).
Qed.

(** X21.  One call queries the terrain exactly for the keys of the
    route that were not cached when it started, once per key: the
    queries it adds are points of the route with uncached keys, no two
    with the same key, and every uncached key of the route is among
    them. *)
Theorem elevation_queries_once q s cs :
  ∃ new,
    queries (snd (sampleElevations q s cs)) = queries s ++ new
    ∧ NoDup (map (λ c, elevationKey (latOf c) (lngOf c)) new)
    ∧ (∀ c, c ∈ new →
         c ∈ cs ∧ elevCache s !! elevationKey (latOf c) (lngOf c) = None)
    ∧ (∀ c, c ∈ cs →
         elevCache s !! elevationKey (latOf c) (lngOf c) = None →
         elevationKey (latOf c) (lngOf c)
           ∈ map (λ c, elevationKey (latOf c) (lngOf c)) new).
Proof. exact (queries_once q cs s). Qed.
End ElevationProperties.

(** ** Promises of the wind fetch layer *)

Section WindFetchExtras.
Import WindData Reference.

Lemma outcome_kept_step getTime s e p o :
  consistent s → outcome s !! p = Some o →
  outcome (step getTime s e) !! p = Some o.
Proof.
  intros Hs Hp. destruct e as [lat lon|q net now]; simpl.
  - unfold fetchWindForPoint.
    destruct (cache s !! cacheKey lat lon); [done|].
    by destruct (inflight s !! cacheKey lat lon).
  - unfold settle. destruct (requests s !! q) as [rq|] eqn:Eq; [|done].
    assert (Hn := pending_unsettled _ Hs _ _ Eq).
    assert (q ≠ p) by (intros ->; congruence).
    destruct net as [err|[|] status [json|]]; simpl; by rewrite lookup_insert_ne.
Qed.

Lemma outcome_kept_run getTime es p o :
  ∀ s, consistent s → outcome s !! p = Some o →
       outcome (run getTime s es) !! p = Some o.
Proof.
  induction es as [|e es IH]; intros s Hs Hp; [done|]. simpl.
  apply IH; [by apply consistent_step|by apply outcome_kept_step].
Qed.

(** X22.  A promise settles once: after it is fulfilled or rejected no
    later call or request completion changes its outcome, and it is no
    longer the promise in flight of any key. *)
Theorem promise_settles_once (getTime : string → option Z)
    (es es' : list Event) (p : nat) (o : Settled) :
  let s := run getTime init es in
  outcome s !! p = Some o →
  outcome (run getTime s es') !! p = Some o
  ∧ ∀ k, inflight (run getTime s es') !! k ≠ Some p.
Proof.
  intros s Hp.
  pose proof (consistent_reach getTime es) as Hs. fold s in Hs.
  assert (Hlater : outcome (run getTime s es') !! p = Some o)
    by by apply outcome_kept_run.
  split; [done|]. intros k Hk.
  assert (Hs' : consistent (run getTime s es')) by by apply consistent_run.
  destruct (inflight_pending _ Hs' _ _ Hk) as (rq & Hrq & _).
  pose proof (pending_unsettled _ Hs' _ _ Hrq). congruence.
Qed.

Lemma first_call_rejected getTime lat lon err now :
  outcome (run getTime init [Call lat lon; Settle 0 (NetFail err) now]) !! 0%nat
  = Some (Rejected err).
Proof.
  change (run getTime init [Call lat lon; Settle 0 (NetFail err) now])
    with (settle getTime 0 (NetFail err) now (run getTime init [Call lat lon])).
  rewrite (settle_failed getTime 0 (NetFail err) now _ _ err
             (first_call_pending _ _ _) eq_refl).
  apply lookup_insert_eq.
Qed.

Lemma promise_settles_once_witness :
  let getTime := λ _ : string, None in
  let es := [Call 43.65 (-79.4); Settle 0 (NetFail "offline") 0] in
  outcome (run getTime (run getTime init es) [Call 43.65 (-79.4)]) !! 0%nat
  = Some (Rejected "offline").
Proof.
  intros getTime es.
  apply (promise_settles_once getTime es [Call 43.65 (-79.4)] 0 (Rejected "offline")).
  apply first_call_rejected.
Defined.

(** X23.  A cached series is never replaced: once a key is cached,
    after any further calls and request completions a call for a
    coordinate with that key returns the same entries, whatever the
    time, and leaves the store as it is. *)
Theorem cached_series_is_final (getTime : string → option Z)
    (es es' : list Event) (lat lon : R) (entries : list HourlyWindEntry) :
  let s := run getTime init es in
  cache s !! cacheKey lat lon = Some entries →
  let s' := run getTime s es' in
  fetchWindForPoint lat lon s' = (Cached entries, s')
  ∧ inflight s' !! cacheKey lat lon = None.
Proof.
  intros s Hc s'.
  pose proof (consistent_reach getTime es) as Hs. fold s in Hs.
  assert (Hc' : cache s' !! cacheKey lat lon = Some entries)
    by by apply cache_kept_run.
  split; [by apply fetch_cached|].
  assert (Hs' : consistent s') by by apply consistent_run.
  destruct (inflight s' !! cacheKey lat lon) as [p|] eqn:E; [|done].
  pose proof (inflight_uncached _ Hs' _ _ E). congruence.
Qed.


Lemma first_call_cached getTime lat lon status json now :
  cache (run getTime init [Call lat lon; Settle 0 (Http true status (Some json)) now])
    !! cacheKey lat lon
  = Some (parseEntries getTime json now).
Proof.
  change (run getTime init [Call lat lon; Settle 0 (Http true status (Some json)) now])
    with (settle getTime 0 (Http true status (Some json)) now
            (run getTime init [Call lat lon])).
  rewrite (settle_ok _ _ _ _ _ _ _ (first_call_pending _ _ _)).
  apply lookup_insert_eq.
Qed.

Lemma cached_series_is_final_witness :
  let getTime := λ _ : string, Some 30%Z in
  let json := mkForecast ["2026-01-01T01:00"]%string [7] [90] in
  let es := [Call 43.65 (-79.4); Settle 0 (Http true 200 (Some json)) 20] in
  let s' := run getTime (run getTime init es) [Call 43.65 (-79.4)] in
  fetchWindForPoint 43.65 (-79.4) s' = (Cached (parseEntries getTime json 20), s').
Proof.
  intros getTime json es s'.
  apply (cached_series_is_final getTime es [Call 43.65 (-79.4)] 43.65 (-79.4)).
  apply first_call_cached.
Defined.

Lemma tracked_step getTime s e : tracked s → tracked (step getTime s e).
Proof.
  intros Ht. destruct e as [lat lon|q net now]; simpl.
  - unfold fetchWindForPoint.
    destruct (cache s !! cacheKey lat lon); [done|].
    destruct (inflight s !! cacheKey lat lon); [done|].
    intros p Hp. simpl in *. destruct (decide (p = issued s)) as [->|Hne].
    + left. rewrite lookup_insert_eq. eauto.
    + rewrite lookup_insert_ne by done. apply Ht. lia.
  - unfold settle. destruct (requests s !! q) as [rq|] eqn:Eq; [|done].
    assert (Hshape : ∀ c o,
      tracked (mkStore c (delete (r_key rq) (inflight s)) (delete q (requests s))
                 (<[q := o]> (outcome s)) (issued s))).
    { intros c o p Hp. simpl in *. destruct (decide (p = q)) as [->|Hne].
      - right. rewrite lookup_insert_eq. eauto.
      - rewrite lookup_delete_ne, lookup_insert_ne by done. by apply Ht. }
    destruct net as [err|[|] status [json|]]; apply Hshape.
Qed.

Lemma tracked_run getTime es : ∀ s, tracked s → tracked (run getTime s es).
Proof.
  induction es as [|e es IH]; intros s Hs; [done|]. simpl.
  by apply IH, tracked_step.
Qed.

(** X24.  No promise is lost: in every store the module can reach, the
    promises handed out are exactly those numbered below [issued], and
    each of them is either still waiting on its request or settled,
    never both. *)
Theorem promises_accounted (getTime : string → option Z) (es : list Event) (p : nat) :
  let s := run getTime init es in
  ((p < issued s)%nat ↔ is_Some (requests s !! p) ∨ is_Some (outcome s !! p))
  ∧ ¬ (is_Some (requests s !! p) ∧ is_Some (outcome s !! p)).
Proof.
  intros s.
  pose proof (consistent_reach getTime es) as Hs. fold s in Hs.
  assert (Ht : tracked s).
  { apply tracked_run. intros q Hq. simpl in Hq. lia. }
  split; [split|].
  - apply Ht.
  - intros [[rq Hrq]|[o Ho]].
    + by eapply pending_issued.
    + by eapply settled_issued.
  - intros [[rq Hrq] [o Ho]].
    pose proof (pending_unsettled _ Hs _ _ Hrq). congruence.
Qed.
End WindFetchExtras.

(** ** The time slider *)

Section SliderProperties.
Import Slider Reference.


Lemma split_nonempty sep s : split sep s ≠ [].
Proof.
  destruct s as [|c rest]; simpl; [done|].
  destruct (split sep rest); [done|]. by destruct (Ascii.eqb c sep).
Qed.

Lemma split_whole sep s : occurs sep s = false → split sep s = [s].
Proof.
  induction s as [|c rest IH]; intros H; [done|]. simpl in *.
  apply orb_false_iff in H as [Hc Hrest]. by rewrite (IH Hrest), Hc.
Qed.

Lemma split_at sep d t :
  occurs sep d = false → split sep (d +:+ String sep t) = d :: split sep t.
Proof.
  induction d as [|c rest IH]; intros H; simpl in *.
  - rewrite Ascii.eqb_refl. destruct (split sep t) eqn:E; [|done].
    by apply split_nonempty in E.
  - apply orb_false_iff in H as [Hc Hrest]. by rewrite (IH Hrest), Hc.
Qed.

(** X25.  A time without the letter T is shown as it is; a date and a
    time joined by T, neither containing another T, is shown as the
    time alone. *)
Theorem shortTime_props (d t : string) :
  let T := Ascii.ascii_of_nat 84 in
  occurs T d = false → occurs T t = false →
  shortTime d = d ∧ shortTime (d +:+ String T t) = t.
Proof.
  intros T Hd Ht. unfold shortTime. fold T.
  rewrite (split_whole T d Hd), (split_at T d t Hd), (split_whole T t Ht). done.
Qed.

Lemma shortTime_props_witness :
  shortTime "2026-02-18T20:00" = "20:00"%string.
Proof.
  apply (shortTime_props "2026-02-18" "20:00"); reflexivity.
Defined.

(** X26.  The slider ends at the last entry of the series, or at 23
    when there is none; with entries the three tick labels are read
    inside the series; and for an hour index up to the end the filled
    share of the track is between 0 and 100 percent. *)
Theorem slider_bounds (len hourIndex : nat) :
  (len = 0%nat → sliderMax len = 23%nat ∧ pct hourIndex len = INR hourIndex / 23 * 100)
  ∧ ((0 < len)%nat →
     sliderMax len = (len - 1)%nat
     ∧ ∀ i, i ∈ tickIndices len → (i < len)%nat)
  ∧ ((hourIndex ≤ sliderMax len)%nat → 0 <= pct hourIndex len <= 100).
Proof.
  split; [|split].
  - intros ->. split; [done|]. unfold pct.
    change (sliderMax 0) with 23%nat. change (0 <? 23)%nat with true. cbv iota.
    replace (INR 23) with 23 by (simpl; lra). reflexivity.
  - intros Hlen. unfold tickIndices, sliderMax.
    replace (0 <? len)%nat with true by (symmetry; apply Nat.ltb_lt; lia).
    split; [done|]. intros i Hi.
    pose proof (Nat.Div0.div_le_upper_bound len 2 len) as Hdiv.
    assert ((len / 2 < len)%nat) by (apply Nat.div_lt; lia).
    repeat (apply elem_of_cons in Hi as [->|Hi]); try lia.
    by apply elem_of_nil in Hi.
  - intros Hh. unfold pct. destruct (0 <? sliderMax len)%nat eqn:E; [|lra].
    apply Nat.ltb_lt in E.
    assert (Hm : 0 < INR (sliderMax len)) by (apply (lt_INR 0); lia).
    assert (Hi : 0 <= INR hourIndex <= INR (sliderMax len)).
    { split; [apply pos_INR|by apply le_INR]. }
    assert (Hq : 0 <= INR hourIndex / INR (sliderMax len) <= 1).
    { split.
      - apply Rmult_le_pos; [lra|]. left. by apply Rinv_0_lt_compat.
      - apply (Rmult_le_reg_r (INR (sliderMax len))); [done|].
        unfold Rdiv. rewrite Rmult_assoc, Rinv_l by lra. lra. }
    lra.
Qed.
End SliderProperties.
